(** * Better-Recipes: the client-side page controller

    A shallow embedding of [static/src/script.ts] (and of the hand-written
    [static/script.js] where the two differ) together with the properties
    the page's specification states about it.

    The script manipulates the browser DOM.  The parts of the DOM it touches
    are modelled explicitly:
    - strings with the JavaScript string methods the script calls
      ([toLowerCase], [includes], [split]);
    - the catalog of [.grid-item] elements, each with its class list, its
      checkbox and its [style.display];
    - a [<details>] panel with its list of registered [transitionend]
      listeners;
    - the download button with its child nodes, class list and [disabled]
      flag, the elements the submit handler creates, and the timers and
      pending promises of the event loop. *)

From stdpp Require Import gmap strings list pretty.
From Stdlib Require Import ZArith.

Local Open Scope string_scope.

(** * The model *)

(** ** JavaScript strings

    Strings are sequences of 8-bit characters.  For header values this is
    what the code has: a value obtained from [Headers.get] is a byte
    string.  Names and queries are JavaScript strings, and the model covers
    those made of ASCII characters ([ascii_text]): on them [toLowerCase] of
    JavaScript changes the letters A to Z and nothing else, which is what
    [toLowerCase] below does.  Outside ASCII JavaScript lower-cases other
    letters too, some of them depending on their context, and the function
    below does not follow it there: every statement that depends on which
    names a query matches assumes [ascii_text] of the query and of the
    names. *)

Module JsString.

Definition lower_char (c : Ascii.ascii) : Ascii.ascii :=
  let n := Ascii.N_of_ascii c in
  if ((65 <=? n) && (n <=? 90))%N then Ascii.ascii_of_N (n + 32) else c.

(** The characters below 128. *)
Definition is_ascii (c : Ascii.ascii) : bool := (Ascii.N_of_ascii c <? 128)%N.

(** Text made of ASCII characters only. *)
Fixpoint ascii_text (s : string) : bool :=
  match s with
  | "" => true
  | String c s' => is_ascii c && ascii_text s'
  end.

(** [s.toLowerCase()], for [s] an ASCII text *)
Fixpoint toLowerCase (s : string) : string :=
  match s with
  | "" => ""
  | String c s' => String (lower_char c) (toLowerCase s')
  end.

(** [s.startsWith(q)] *)
Fixpoint startsWith (s q : string) {struct q} : bool :=
  match q, s with
  | "", _ => true
  | String _ _, "" => false
  | String a q', String b s' => if decide (a = b) then startsWith s' q' else false
  end.

(** [s.includes(q)]: [q] occurs in [s] at some position. *)
Fixpoint includes (s q : string) : bool :=
  startsWith s q ||
  match s with
  | "" => false
  | String _ s' => includes s' q
  end.

(** [s.substring(n)] *)
Fixpoint skip (n : nat) (s : string) : string :=
  match n, s with
  | 0, _ => s
  | S _, "" => ""
  | S n', String _ s' => skip n' s'
  end.

(** The leftmost occurrence of [sep] in [s]: the text before it and the
    text after it. *)
Fixpoint cut (sep s : string) : option (string * string) :=
  if startsWith s sep then Some ("", skip (String.length sep) s)
  else match s with
       | "" => None
       | String c s' =>
           match cut sep s' with
           | Some (a, b) => Some (String c a, b)
           | None => None
           end
       end.

(** The pieces of [s]; [fuel] bounds the number of cuts, and the length of
    [s] is always enough. *)
Fixpoint split_go (fuel : nat) (sep s : string) : list string :=
  match fuel with
  | 0 => [s]
  | S fuel' =>
      match cut sep s with
      | None => [s]
      | Some (a, rest) => a :: split_go fuel' sep rest
      end
  end.

(** [s.split(sep)] for a string separator: the pieces of [s] between the
    successive leftmost occurrences of [sep]; an empty separator splits
    [s] into its characters. *)
Definition split (s sep : string) : list string :=
  match sep with
  | "" => (λ c, String c "") <$> String.list_ascii_of_string s
  | _ => split_go (String.length s) sep s
  end.

Definition is_space (c : Ascii.ascii) : bool :=
  let n := Ascii.N_of_ascii c in
  ((n =? 32) || ((9 <=? n) && (n <=? 13)))%N.

Fixpoint trimStart (s : string) : string :=
  match s with
  | "" => ""
  | String c s' => if is_space c then trimStart s' else s
  end.

(** [s.trim()].  The script never calls it; it serves to state what the
    specification says of the search query. *)
Definition trim (s : string) : string :=
  String.rev (trimStart (String.rev (trimStart s))).

End JsString.

Import JsString.

(** ** The catalog: selection and search

    [document.querySelectorAll('.grid-item')] returns the catalog entries in
    document order; the page is modelled by that list together with the
    three elements [updateSelectedList] writes. *)

Module Catalog.

(** A [.grid-item] element.  [classList] holds its classes besides
    [grid-item]; [checked] is the state of its checkbox input. *)
Record grid_item := GridItem {
  data_name : option string;
  classList : gset string;
  checked : bool;
  display : string
}.

Record page := Page {
  items : list grid_item;
  (** the [textContent] of the [<li>] children of [#selected-list] *)
  selected_list : list string;
  (** the [textContent] of [#selected-items-count] and [#selected-count] *)
  selected_items_count : string;
  selected_count : string
}.

Definition has_class (c : string) (it : grid_item) : bool :=
  bool_decide (c ∈ classList it).

Definition classList_add (c : string) (it : grid_item) : grid_item :=
  GridItem (data_name it) (classList it ∪ {[c]}) (checked it) (display it).

Definition classList_remove (c : string) (it : grid_item) : grid_item :=
  GridItem (data_name it) (classList it ∖ {[c]}) (checked it) (display it).

Definition classList_toggle (c : string) (it : grid_item) : grid_item :=
  if has_class c it then classList_remove c it else classList_add c it.

Definition set_checked (b : bool) (it : grid_item) : grid_item :=
  GridItem (data_name it) (classList it) b (display it).

Definition set_display (d : string) (it : grid_item) : grid_item :=
  GridItem (data_name it) (classList it) (checked it) d.

(** [item.getAttribute('data-name') || ''] *)
Definition name_or_empty (it : grid_item) : string :=
  match data_name it with
  | Some n => n
  | None => ""
  end.

(** [updateSelectedList]: empty the list, then for each
    [.grid-item.selected] in document order append an [<li>] with its
    name and count it; finally write the count into the two labels. *)
Definition updateSelectedList (p : page) : page :=
  let '(lis, count) :=
    foldl (λ '(lis, count) item, ((lis ++ [name_or_empty item])%list, S count))
          (([] : list string), 0%nat)
          (filter (λ it, has_class "selected" it = true) (items p)) in
  Page (items p) lis (pretty count) ("Selected: " +:+ pretty count).

(** [toggleSelection(element, optionId)], [element] being the entry at
    position [i] of the catalog.  The function is always called with an
    entry; a position outside the catalog stands for no call of the script,
    and no statement is made about it. *)
Definition toggleSelection (i : nat) (p : page) : page :=
  let toggle it := set_checked (negb (checked it)) (classList_toggle "selected" it) in
  updateSelectedList
    (Page (alter toggle i (items p))
          (selected_list p) (selected_items_count p) (selected_count p)).

Definition selectAll (p : page) : page :=
  updateSelectedList
    (Page ((λ it, set_checked true (classList_add "selected" it)) <$> items p)
          (selected_list p) (selected_items_count p) (selected_count p)).

Definition deselectAll (p : page) : page :=
  updateSelectedList
    (Page ((λ it, set_checked false (classList_remove "selected" it)) <$> items p)
          (selected_list p) (selected_items_count p) (selected_count p)).

(** The callback the [keyup] listener applies to each entry. *)
Definition show_if_match (query : string) (it : grid_item) : grid_item :=
  let name := match data_name it with
              | Some n => toLowerCase n
              | None => ""
              end in
  if includes name query then set_display "block" it else set_display "none" it.

(** The [keyup] listener of [#searchBar]; [value] is [this.value]. *)
Definition onKeyup (value : string) (p : page) : page :=
  let query := toLowerCase value in
  Page (show_if_match query <$> items p)
       (selected_list p) (selected_items_count p) (selected_count p).

(** The part of the [DOMContentLoaded] listener that concerns the
    catalog: entries whose checkbox is checked get the [selected] class,
    then the list is rendered. *)
Definition onDOMContentLoaded (p : page) : page :=
  updateSelectedList
    (Page ((λ it, if checked it then classList_add "selected" it else it) <$> items p)
          (selected_list p) (selected_items_count p) (selected_count p)).

Inductive operation :=
| Toggle (i : nat)
| SelectAll
| DeselectAll.

Definition run (p : page) (o : operation) : page :=
  match o with
  | Toggle i => toggleSelection i p
  | SelectAll => selectAll p
  | DeselectAll => deselectAll p
  end.

(** The class that styles an entry and its checkbox agree. *)
Definition in_sync (it : grid_item) : Prop :=
  has_class "selected" it = checked it.

(** The selection snapshot: the names of the checked entries in catalog
    order. *)
Definition snapshot (p : page) : list string :=
  name_or_empty <$> filter (λ it, checked it = true) (items p).

(** What the page shows is the snapshot. *)
Definition rendered (p : page) : Prop :=
  selected_list p = snapshot p ∧
  selected_items_count p = pretty (length (snapshot p)) ∧
  selected_count p = "Selected: " +:+ pretty (length (snapshot p)).

(** A case-insensitive occurrence of [q] in [name], for ASCII texts. *)
Definition ci_substring (name q : string) : Prop :=
  ∃ pre mid post, name = pre +:+ mid +:+ post ∧ toLowerCase mid = toLowerCase q.

(** The match as the specification words it: the raw query is trimmed
    before it is compared. *)
Definition spec_matches (name rawQuery : string) : Prop :=
  ci_substring name (trim rawQuery).

End Catalog.

(** ** Collapsible panels

    One [<details>] element with the [click] listener that
    [setupDetailsAnimations] installs on its [<summary>].  Every click
    evaluates a fresh function expression [handler] and registers it for
    [transitionend]; listeners are therefore told apart by a number given
    at registration.  [fired] records, for the statements below, which
    listeners have been invoked. *)

Module Panel.

Inductive completion :=
| Collapsed   (* the handler registered when the panel was open *)
| Expanded.   (* the handler registered when the panel was closed *)

#[global] Instance completion_eq_dec : EqDecision completion.
Proof. solve_decision. Defined.

Record details := Details {
  open : bool;                          (* hasAttribute("open") *)
  style_height : string;
  style_transition : string;
  frames : list string;                 (* heights pending in requestAnimationFrame *)
  listeners : list (nat * completion);  (* transitionend listeners, in registration order *)
  next_listener : nat;
  fired : list nat
}.

Definition px (n : nat) : string := pretty n +:+ "px".

(** The [click] listener.  [summaryHeight] is [summary.offsetHeight] and
    [fullHeight] is [detailsElement.scrollHeight], both measured by the
    browser when the listener reads them. *)
Definition onClick (summaryHeight fullHeight : nat) (d : details) : details :=
  if open d then
    Details (open d) (px fullHeight) "height 0.3s ease"
            (frames d ++ [px summaryHeight])
            (listeners d ++ [(next_listener d, Collapsed)])
            (S (next_listener d)) (fired d)
  else
    Details true (px summaryHeight) "height 0.3s ease"
            (frames d ++ [px fullHeight])
            (listeners d ++ [(next_listener d, Expanded)])
            (S (next_listener d)) (fired d).

(** The pending [requestAnimationFrame] callbacks run in order. *)
Definition onAnimationFrame (d : details) : details :=
  Details (open d) (foldl (λ _ h, h) (style_height d) (frames d))
          (style_transition d) [] (listeners d) (next_listener d) (fired d).

Definition removeEventListener (id : nat) (d : details) : details :=
  Details (open d) (style_height d) (style_transition d) (frames d)
          (filter (λ l, l.1 ≠ id) (listeners d)) (next_listener d) (fired d).

(** The body of a [handler]. *)
Definition invoke (l : nat * completion) (d : details) : details :=
  let d' :=
    Details (match l.2 with Collapsed => false | Expanded => open d end)
            "" "" (frames d) (listeners d) (next_listener d) (fired d ++ [l.1]) in
  removeEventListener l.1 d'.

(** Dispatch of one [transitionend] event: the listeners registered when
    the dispatch starts are invoked in order, one that has been removed in
    the meantime being skipped. *)
Definition dispatch_to (d : details) (l : nat * completion) : details :=
  if bool_decide (l.1 ∈ (listeners d).*1) then invoke l d else d.

Definition onTransitionEnd (d : details) : details :=
  foldl dispatch_to d (listeners d).

Inductive event :=
| Click (summaryHeight fullHeight : nat)
| AnimationFrame
| TransitionEnd.

Definition step (d : details) (e : event) : details :=
  match e with
  | Click sh fh => onClick sh fh d
  | AnimationFrame => onAnimationFrame d
  | TransitionEnd => onTransitionEnd d
  end.

Definition is_click (e : event) : bool :=
  match e with Click _ _ => true | _ => false end.

Definition is_transitionend (e : event) : bool :=
  match e with TransitionEnd => true | _ => false end.

(** The number of clicks among the events. *)
Definition clicks (evs : list event) : nat :=
  length (filter (λ e, is_click e = true) evs).

(** A panel at rest: no completion handler is registered. *)
Definition at_rest (d : details) : Prop :=
  listeners d = [].

(** Every handler, invoked or still registered, has a number of its own,
    below the next one to be given out. *)
Definition well_formed (d : details) : Prop :=
  NoDup (fired d ++ (listeners d).*1) ∧
  Forall (λ id, (id < next_listener d)%nat) (fired d ++ (listeners d).*1).

End Panel.

(** ** Form submission

    The download button, the elements the [onsubmit] handler creates, and
    the callbacks the event loop runs later (interval ticks, settlement of
    [fetch] and of [response.blob()], the reset timeout).

    Two facts of the DOM shape the model.  Assigning [textContent] replaces
    every child of the element by a single text node (none for the empty
    string), and reading it concatenates the text of all descendants.
    Elements are objects: a closure keeps its spinner and its ring and
    goes on writing to them after they have left the document, so elements
    live in a store and the button's child list refers to them by number.

    Every ring is taken to contain its [circle], as the rings made by
    [createProgressRing] do.

    The two source files differ in where [originalText] is declared:
    [script.ts] declares it before the [try] statement, [script.js] inside
    the [try] block, where the [catch] block cannot see it. *)

Module Submission.

Inductive source := TypeScript | JavaScript.

(** The values the script gives to [circle.style.strokeDashoffset], kept as
    the expressions that produce them. *)
Inductive dashoffset :=
| Unset                        (* only the attribute: [circumference] *)
| AtProgress (progress : Z)    (* [circumference - (progress / 100) * circumference] *)
| Zero.                        (* ['0'] *)

(** The percentage of the ring that is drawn. *)
Definition percent_shown (o : dashoffset) : Z :=
  match o with
  | Unset => 0
  | AtProgress p => p
  | Zero => 100
  end.

Record element := Element {
  classes : gset string;
  innerText : string;              (* the text of the element's subtree *)
  style_display : string;
  strokeDashoffset : dashoffset    (* of the ring's [circle] *)
}.

Inductive node :=
| TextNode (data : string)
| Elem (id : nat).

#[global] Instance node_eq_dec : EqDecision node.
Proof. solve_decision. Defined.

Record button := Button {
  disabled : bool;
  classList : gset string;
  childNodes : list node
}.

Inductive outcome := Succeeded | Failed.

Inductive stage :=
| Starting                                          (* the handler has not reached [fetch] *)
| AwaitingResponse                                  (* [await fetch(...)] *)
| AwaitingBlob (contentDisposition : option string) (* [await response.blob()] *)
| AwaitingReset (o : outcome) (delay : Z)           (* [setTimeout] pending *)
| Finished.

(** The specification's [SubmissionState]. *)
Inductive submission_state := Idle | InFlight | Success | Failure.

Definition state_of (g : stage) : submission_state :=
  match g with
  | Starting | AwaitingResponse => InFlight
  | AwaitingBlob _ | AwaitingReset Succeeded _ => Success
  | AwaitingReset Failed _ => Failure
  | Finished => Idle
  end.

(** The variables of one invocation of the [onsubmit] handler.
    [originalText] is [None] until its declaration has been evaluated;
    [progressInterval] holds the period of the interval timer while it is
    registered. *)
Record run := Run {
  spinner : nat;
  ring : nat;
  originalText : option string;
  progress : Z;
  progressInterval : option Z;
  stage_of : stage
}.

Record state := State {
  btn : button;
  objects : gmap nat element;
  next_id : nat;
  runs : list run;
  saved : list string     (* [a.download] at each [a.click()] *)
}.

(** *** The DOM operations the script uses *)

Definition upd_btn (f : button → button) (s : state) : state :=
  State (f (btn s)) (objects s) (next_id s) (runs s) (saved s).

Definition upd_elem (id : nat) (f : element → element) (s : state) : state :=
  State (btn s) (alter f id (objects s)) (next_id s) (runs s) (saved s).

Definition upd_run (k : nat) (f : run → run) (s : state) : state :=
  State (btn s) (objects s) (next_id s) (alter f k (runs s)) (saved s).

Definition with_run (k : nat) (f : run → state → state) (s : state) : state :=
  match runs s !! k with
  | Some r => f r s
  | None => s
  end.

(** [document.createElement] and the like: a new object in the store. *)
Definition alloc (e : element) (s : state) : state :=
  State (btn s) (<[next_id s := e]> (objects s)) (S (next_id s)) (runs s) (saved s).

Definition node_text (els : gmap nat element) (n : node) : string :=
  match n with
  | TextNode d => d
  | Elem id => match els !! id with
               | Some e => innerText e
               | None => ""
               end
  end.

(** [button.textContent], read *)
Definition textContent (s : state) : string :=
  foldr (λ n acc, node_text (objects s) n +:+ acc) "" (childNodes (btn s)).

(** [button.textContent = v] *)
Definition set_textContent (v : string) : state → state :=
  upd_btn (λ b, Button (disabled b) (classList b)
                       (match v with "" => [] | _ => [TextNode v] end)).

Definition set_disabled (v : bool) : state → state :=
  upd_btn (λ b, Button v (classList b) (childNodes b)).

Definition classList_add (c : string) : state → state :=
  upd_btn (λ b, Button (disabled b) (classList b ∪ {[c]}) (childNodes b)).

Definition classList_remove (c : string) : state → state :=
  upd_btn (λ b, Button (disabled b) (classList b ∖ {[c]}) (childNodes b)).

(** [button.appendChild(e)] for an element that is not yet a child *)
Definition appendChild (id : nat) : state → state :=
  upd_btn (λ b, Button (disabled b) (classList b) (childNodes b ++ [Elem id])).

(** [e.remove()] *)
Definition remove (id : nat) : state → state :=
  upd_btn (λ b, Button (disabled b) (classList b)
                       (filter (λ n, n ≠ Elem id) (childNodes b))).

Definition has_class (c : string) (els : gmap nat element) (n : node) : bool :=
  match n with
  | TextNode _ => false
  | Elem id => match els !! id with
               | Some e => bool_decide (c ∈ classes e)
               | None => false
               end
  end.

Fixpoint first_with_class (c : string) (els : gmap nat element) (l : list node)
    : option nat :=
  match l with
  | [] => None
  | TextNode _ :: l' => first_with_class c els l'
  | Elem id :: l' =>
      if has_class c els (Elem id) then Some id else first_with_class c els l'
  end.

(** [button.querySelector('.' + c)], among the children of the button *)
Definition querySelector (c : string) (s : state) : option nat :=
  first_with_class c (objects s) (childNodes (btn s)).

(** The children of the button that carry class [c]. *)
Definition children_with_class (c : string) (s : state) : list node :=
  filter (λ n, has_class c (objects s) n = true) (childNodes (btn s)).

Definition set_display (v : string) (e : element) : element :=
  Element (classes e) (innerText e) v (strokeDashoffset e).

Definition set_strokeDashoffset (o : dashoffset) (e : element) : element :=
  Element (classes e) (innerText e) (style_display e) o.

(** *** The script *)

(** The text nodes that parsing the template literal of [createProgressRing]
    leaves inside the [svg] element, around its [circle]: a line feed and
    the indentation, before and after. *)
Definition ring_text (src : source) : string :=
  let lf := String (Ascii.ascii_of_nat 10) "" in
  match src with
  | TypeScript => lf +:+ "    " +:+ lf +:+ "  "
  | JavaScript => lf +:+ "      " +:+ lf +:+ "    "
  end.

Definition createProgressRing (src : source) : element :=
  Element {["progress-ring"]} (ring_text src) "" Unset.

(** [v || 'datapack.zip'], for [v] a string or [undefined] *)
Definition or_default (v : option string) : string :=
  match v with
  | None | Some "" => "datapack.zip"
  | Some name => name
  end.

(** [contentDisposition?.split('filename=')[1] || 'datapack.zip'], where
    [contentDisposition] is [response.headers.get('content-disposition')] *)
Definition download_name (contentDisposition : option string) : string :=
  match contentDisposition with
  | None => or_default None
  | Some h => or_default (split h "filename=" !! 1%nat)
  end.

(** [pre] is what precedes the first occurrence of [tok] in [h]. *)
Definition leftmost (tok pre h : string) : Prop :=
  ∀ pre2 suf2, h = pre2 +:+ tok +:+ suf2 →
               (String.length pre ≤ String.length pre2)%nat.

(** [response.ok] *)
Definition ok (status : Z) : bool := ((200 <=? status) && (status <=? 299))%Z.

Definition progress_increment : Z := 2.
Definition tick_period : Z := 20.
Definition success_delay : Z := 1000.
Definition failure_delay : Z := 1500.

(** The handler up to the end of the [if (!ring)] statement (and, in
    [script.ts], the declaration of [originalText]): the spinner is
    created, the ring is looked up and only created and appended when the
    button has none. *)
Definition begin_submit (src : source) (s : state) : state :=
  let spinner := next_id s in
  let s1 := alloc (Element {["spinner"]} "" "" Unset) s in
  let '(ring, s2) :=
    match querySelector "progress-ring" s1 with
    | Some r => (r, s1)
    | None => (next_id s1, appendChild (next_id s1) (alloc (createProgressRing src) s1))
    end in
  let original := match src with
                  | TypeScript => Some (textContent s2)
                  | JavaScript => None
                  end in
  State (btn s2) (objects s2) (next_id s2)
        (runs s2 ++ [Run spinner ring original 0 None Starting]) (saved s2).

Definition set_originalText (v : option string) (r : run) : run :=
  Run (spinner r) (ring r) v (progress r) (progressInterval r) (stage_of r).

Definition set_progress (v : Z) (r : run) : run :=
  Run (spinner r) (ring r) (originalText r) v (progressInterval r) (stage_of r).

Definition set_progressInterval (v : option Z) (r : run) : run :=
  Run (spinner r) (ring r) (originalText r) (progress r) v (stage_of r).

Definition set_stage (v : stage) (r : run) : run :=
  Run (spinner r) (ring r) (originalText r) (progress r) (progressInterval r) v.

(** The statements of [form.onsubmit] up to [await fetch(...)], for the
    invocation that becomes run [k]. *)
Definition onsubmit (src : source) (k : nat) : list (state → state) :=
  [ begin_submit src;
    set_disabled true;
    classList_add "loading";
    with_run k (λ r, appendChild (spinner r));
    with_run k (λ r, upd_elem (spinner r) (set_display "block")) ]
  ++ match src with
     | TypeScript => []
     | JavaScript => [λ s, upd_run k (set_originalText (Some (textContent s))) s]
     end
  ++ [ set_textContent "Generating...";
       upd_run k (λ r, set_stage AwaitingResponse
                         (set_progressInterval (Some tick_period) (set_progress 0 r))) ].

(** The callback given to [setInterval]. *)
Definition tick (k : nat) : list (state → state) :=
  [ upd_run k (λ r, set_progress (progress r + progress_increment) r);
    with_run k (λ r, upd_elem (ring r) (set_strokeDashoffset (AtProgress (progress r))));
    upd_run k (λ r, if (100 <=? progress r)%Z then set_progressInterval None r else r) ].

(** After [fetch] has resolved with [response.ok]. *)
Definition success (k : nat) (contentDisposition : option string)
    : list (state → state) :=
  [ upd_run k (set_progressInterval None);
    with_run k (λ r, upd_elem (ring r) (set_strokeDashoffset Zero));
    classList_remove "loading";
    classList_add "success";
    set_textContent "Download Starting...";
    upd_run k (set_stage (AwaitingBlob contentDisposition)) ].

(** After [response.blob()] has resolved: the anchor is clicked and the
    reset is scheduled. *)
Definition download (k : nat) (contentDisposition : option string)
    : list (state → state) :=
  [ λ s, State (btn s) (objects s) (next_id s) (runs s)
               (saved s ++ [download_name contentDisposition]);
    upd_run k (set_stage (AwaitingReset Succeeded success_delay)) ].

(** The [catch] block. *)
Definition catch (k : nat) : list (state → state) :=
  [ classList_remove "loading";
    classList_add "error";
    set_textContent "Error! Try Again";
    upd_run k (set_stage (AwaitingReset Failed failure_delay)) ].

(** What the name [originalText] denotes inside the reset callback. *)
Definition originalText_in_scope (src : source) (o : outcome) (r : run)
    : option string :=
  match src, o with
  | JavaScript, Failed => None
  | _, _ => originalText r
  end.

(** The callback given to [setTimeout].  Where [originalText] cannot be
    resolved the assignment throws a [ReferenceError] and the rest of the
    callback is not executed. *)
Definition reset (src : source) (k : nat) (o : outcome) (r : run)
    : list (state → state) :=
  [ set_disabled false;
    classList_remove (match o with Succeeded => "success" | Failed => "error" end) ]
  ++ match originalText_in_scope src o r with
     | Some text =>
         [ set_textContent text;
           upd_elem (spinner r) (set_display "none");
           remove (ring r) ]
     | None => []
     end
  ++ [ upd_run k (set_stage Finished) ].

Inductive event :=
| Submit
| Tick (k : nat)
| Response (k : nat) (status : Z) (contentDisposition : option string)
| NetworkError (k : nat)
| BlobReady (k : nat)
| BlobError (k : nat)
| Timeout (k : nat).

(** The statements the event loop executes for an event, if the event can
    occur in the state. *)
Definition handler (src : source) (s : state) (ev : event)
    : option (list (state → state)) :=
  match ev with
  | Submit => Some (onsubmit src (length (runs s)))
  | Tick k =>
      match runs s !! k with
      | Some r => match progressInterval r with
                  | Some _ => Some (tick k)
                  | None => None
                  end
      | None => None
      end
  | Response k status cd =>
      match stage_of <$> runs s !! k with
      | Some AwaitingResponse => Some (if ok status then success k cd else catch k)
      | _ => None
      end
  | NetworkError k =>
      match stage_of <$> runs s !! k with
      | Some AwaitingResponse => Some (catch k)
      | _ => None
      end
  | BlobReady k =>
      match stage_of <$> runs s !! k with
      | Some (AwaitingBlob cd) => Some (download k cd)
      | _ => None
      end
  | BlobError k =>
      match stage_of <$> runs s !! k with
      | Some (AwaitingBlob _) => Some (catch k)
      | _ => None
      end
  | Timeout k =>
      match runs s !! k with
      | Some r => match stage_of r with
                  | AwaitingReset o _ => Some (reset src k o r)
                  | _ => None
                  end
      | None => None
      end
  end.

(** The state after each statement, in order. *)
Fixpoint trace (stmts : list (state → state)) (s : state) : list state :=
  match stmts with
  | [] => []
  | f :: stmts' => f s :: trace stmts' (f s)
  end.

Definition execute (stmts : list (state → state)) (s : state) : state :=
  foldl (λ s f, f s) s stmts.

(** One turn of the event loop. *)
Definition step (src : source) (s : state) (ev : event) : option state :=
  match handler src s ev with
  | Some stmts => Some (execute stmts s)
  | None => None
  end.

(** The states the page passes through during that turn. *)
Definition during (src : source) (s : state) (ev : event) : list state :=
  match handler src s ev with
  | Some stmts => trace stmts s
  | None => []
  end.

Fixpoint steps (src : source) (s : state) (evs : list event) : option state :=
  match evs with
  | [] => Some s
  | ev :: evs' => match step src s ev with
                  | Some s' => steps src s' evs'
                  | None => None
                  end
  end.

(** Every state the page passes through while the events are handled. *)
Fixpoint history (src : source) (s : state) (evs : list event) : list state :=
  match evs with
  | [] => []
  | ev :: evs' => match step src s ev with
                  | Some s' => during src s ev ++ history src s' evs'
                  | None => []
                  end
  end.

(** *** Observations *)

Definition phase (k : nat) (s : state) : option submission_state :=
  (λ r, state_of (stage_of r)) <$> runs s !! k.

Definition timer (k : nat) (s : state) : option (option Z) :=
  progressInterval <$> runs s !! k.

Definition progress_of (k : nat) (s : state) : option Z :=
  progress <$> runs s !! k.

(** The percentage shown by the ring of run [k]. *)
Definition ring_percent (k : nat) (s : state) : option Z :=
  match runs s !! k with
  | Some r => (λ e, percent_shown (strokeDashoffset e)) <$> objects s !! ring r
  | None => None
  end.

Definition spinner_display (k : nat) (s : state) : option string :=
  match runs s !! k with
  | Some r => style_display <$> objects s !! spinner r
  | None => None
  end.

Definition count_class (c : string) (s : state) : nat :=
  length (children_with_class c s).

Definition is_text (n : node) : Prop :=
  match n with
  | TextNode _ => True
  | Elem _ => False
  end.

(** The store is consistent: the element children of the button are
    objects of the store, and the numbers of the objects in the store are
    below the next one to be given out. *)
Definition consistent (s : state) : Prop :=
  (∀ id, Elem id ∈ childNodes (btn s) → is_Some (objects s !! id)) ∧
  (∀ id, is_Some (objects s !! id) → (id < next_id s)%nat).

(** A freshly loaded page: a consistent store and no submission yet. *)
Definition loaded (s : state) : Prop :=
  consistent s ∧ runs s = [] ∧ saved s = [].

(** A statement that creates no object, changes no class and adds no child
    to the button. *)
Definition tame (f : state → state) : Prop :=
  ∀ s,
    next_id (f s) = next_id s ∧
    (∀ id, classes <$> objects (f s) !! id = classes <$> objects s !! id) ∧
    (childNodes (btn (f s)) `sublist_of` childNodes (btn s) ∨
     Forall is_text (childNodes (btn (f s)))).

(** What holds of the variables of a run between two turns of the event
    loop. *)
Definition run_ok (s : state) (r : run) : Prop :=
  is_Some (objects s !! ring r) ∧
  (0 ≤ progress r ≤ 100)%Z ∧
  Z.even (progress r) = true ∧
  (progressInterval r = None ∨
   progressInterval r = Some tick_period ∧ (progress r < 100)%Z).

(** *** The life of a run *)

(** The variables of a run after a tick of its timer. *)
Definition ticked (r : run) : run :=
  let r1 := set_progress (progress r + progress_increment) r in
  if (100 <=? progress r1)%Z then set_progressInterval None r1 else r1.

Definition failed (r : run) : run :=
  set_stage (AwaitingReset Failed failure_delay) r.

(** What an event other than [Submit] does to the variables of the run it
    concerns. *)
Inductive run_change : event → nat → run → run → Prop :=
| change_tick k r p :
    progressInterval r = Some p → run_change (Tick k) k r (ticked r)
| change_accepted k status cd r :
    ok status = true → stage_of r = AwaitingResponse →
    run_change (Response k status cd) k r
               (set_stage (AwaitingBlob cd) (set_progressInterval None r))
| change_refused k status cd r :
    ok status = false → stage_of r = AwaitingResponse →
    run_change (Response k status cd) k r (failed r)
| change_unreachable k r :
    stage_of r = AwaitingResponse → run_change (NetworkError k) k r (failed r)
| change_downloaded k cd r :
    stage_of r = AwaitingBlob cd →
    run_change (BlobReady k) k r
               (set_stage (AwaitingReset Succeeded success_delay) r)
| change_truncated k cd r :
    stage_of r = AwaitingBlob cd → run_change (BlobError k) k r (failed r)
| change_reset k o d r :
    stage_of r = AwaitingReset o d →
    run_change (Timeout k) k r (set_stage Finished r).

(** The order in which a run passes through its stages. *)
Definition rank (g : stage) : nat :=
  match g with
  | Starting => 0
  | AwaitingResponse => 1
  | AwaitingBlob _ => 2
  | AwaitingReset _ _ => 3
  | Finished => 4
  end.

Definition delay_for (o : outcome) : Z :=
  match o with
  | Succeeded => success_delay
  | Failed => failure_delay
  end.

Definition is_tick (k : nat) (ev : event) : bool :=
  match ev with
  | Tick j => bool_decide (j = k)
  | _ => false
  end.

(** The number of ticks of the timer of run [k] among the events. *)
Definition ticks (k : nat) (evs : list event) : nat :=
  length (filter (λ ev, is_tick k ev = true) evs).

Definition is_blob_ready (ev : event) : bool :=
  match ev with
  | BlobReady _ => true
  | _ => false
  end.

(** The number of response bodies that arrive among the events. *)
Definition bodies (evs : list event) : nat :=
  length (filter (λ ev, is_blob_ready ev = true) evs).

End Submission.

(** ** The help dialog

    The class lists of [#overlay] and [#helpModal], which [showHelp] and
    [hideHelp] write. *)

Module Help.

Record dialog := Dialog {
  overlay : gset string;
  helpModal : gset string
}.

Definition showHelp (d : dialog) : dialog :=
  Dialog (overlay d ∪ {["show"]})
         (helpModal d ∪ {["show"]} ∪ {["animate-fade-in"]}).

Definition hideHelp (d : dialog) : dialog :=
  Dialog (overlay d ∖ {["show"]})
         (helpModal d ∖ {["show"]} ∖ {["animate-fade-in"]}).

Inductive call := ShowHelp | HideHelp.

Definition apply (d : dialog) (c : call) : dialog :=
  match c with
  | ShowHelp => showHelp d
  | HideHelp => hideHelp d
  end.

(** The style sheet displays the overlay and the dialog when they carry
    the class [show]. *)
Definition shown (d : dialog) : Prop :=
  "show" ∈ overlay d ∧ "show" ∈ helpModal d.

End Help.

(** * Properties *)

(** ** JavaScript strings *)

Section string_facts.

(** stdpp keeps [String.append] folded under [simpl]; its two defining
    equations are used as rewrite rules instead. *)
Lemma app_nil_l_s (s : string) : "" +:+ s = s.
Proof. reflexivity. Qed.

Lemma app_cons_s (c : Ascii.ascii) (a b : string) :
  String c a +:+ b = String c (a +:+ b).
Proof. reflexivity. Qed.

Lemma app_nil_r_s (s : string) : s +:+ "" = s.
Proof. induction s as [|c s IH]; [done | by rewrite app_cons_s, IH]. Qed.

Lemma app_assoc_s (a b c : string) : (a +:+ b) +:+ c = a +:+ (b +:+ c).
Proof. induction a as [|x a IH]; [done | by rewrite !app_cons_s, IH]. Qed.

Lemma length_app_s (a b : string) :
  String.length (a +:+ b) = String.length a + String.length b.
Proof. induction a as [|x a IH]; [done | rewrite app_cons_s; simpl; by rewrite IH]. Qed.

Lemma startsWith_spec (s q : string) :
  startsWith s q = true ↔ ∃ post, s = q +:+ post.
Proof.
  revert s. induction q as [|a q IH]; intros s; simpl.
  - split; [intros _; by exists s | done].
  - destruct s as [|b s].
    + split; [done | intros [post H]; discriminate H].
    + destruct (decide (a = b)) as [->|Hne].
      * rewrite IH. split; intros [post H]; exists post.
        -- by rewrite app_cons_s, H.
        -- rewrite app_cons_s in H. by injection H.
      * split; [done | intros [post H]; rewrite app_cons_s in H; injection H; congruence].
Qed.

Lemma startsWith_app (q post : string) : startsWith (q +:+ post) q = true.
Proof. apply startsWith_spec. by exists post. Qed.

(** [includes] is the substring relation. *)
Lemma includes_spec (s q : string) :
  includes s q = true ↔ ∃ pre post, s = pre +:+ q +:+ post.
Proof.
  induction s as [|c s IH]; simpl.
  - rewrite orb_false_r, startsWith_spec. split.
    + intros [post H]. by exists "", post.
    + intros [pre [post H]]. destruct pre; [by exists post | discriminate H].
  - rewrite orb_true_iff, IH, startsWith_spec. split.
    + intros [[post H] | [pre [post H]]].
      * by exists "", post.
      * exists (String c pre), post. by rewrite app_cons_s, H.
    + intros [pre [post H]]. destruct pre as [|x pre].
      * left. by exists post.
      * right. rewrite app_cons_s in H. injection H as _ H. by exists pre, post.
Qed.

Lemma includes_empty (s : string) : includes s "" = true.
Proof. destruct s; reflexivity. Qed.

Lemma toLowerCase_app (a b : string) :
  toLowerCase (a +:+ b) = toLowerCase a +:+ toLowerCase b.
Proof.
  induction a as [|x a IH]; [done|].
  rewrite app_cons_s. simpl. by rewrite app_cons_s, IH.
Qed.

(** Lower-casing works character by character, so a decomposition of the
    lower-cased string comes from a decomposition of the string. *)
Lemma toLowerCase_app_inv (s a b : string) :
  toLowerCase s = a +:+ b →
  ∃ s1 s2, s = s1 +:+ s2 ∧ toLowerCase s1 = a ∧ toLowerCase s2 = b.
Proof.
  revert s. induction a as [|x a IH]; intros s H.
  - by exists "", s.
  - rewrite app_cons_s in H. destruct s as [|c s]; [discriminate H|]. simpl in H.
    injection H as Hc H. destruct (IH _ H) as (s1 & s2 & -> & H1 & H2).
    exists (String c s1), s2. rewrite app_cons_s. simpl. by rewrite Hc, H1.
Qed.

Lemma skip_app (a b : string) : skip (String.length a) (a +:+ b) = b.
Proof. induction a as [|x a IH]; [by destruct b | done]. Qed.

Lemma cut_sound (sep s a b : string) :
  cut sep s = Some (a, b) → s = a +:+ sep +:+ b.
Proof.
  revert a b. induction s as [|c s IH]; intros a b; simpl.
  - destruct (startsWith "" sep) eqn:E; [|done].
    intros [= <- <-]. apply startsWith_spec in E as [post E].
    destruct sep; [done | discriminate E].
  - destruct (startsWith (String c s) sep) eqn:E.
    + intros [= <- <-]. apply startsWith_spec in E as [post E].
      rewrite E, skip_app. reflexivity.
    + destruct (cut sep s) as [[a' b']|]; [|done].
      intros [= <- <-]. by rewrite app_cons_s, (IH a' b').
Qed.

Lemma cut_complete (sep s a b : string) :
  s = a +:+ sep +:+ b → is_Some (cut sep s).
Proof.
  revert s. induction a as [|x a IH]; intros s ->.
  - rewrite app_nil_l_s.
    assert (startsWith (sep +:+ b) sep = true) as E by apply startsWith_app.
    destruct (sep +:+ b); simpl; rewrite E; eauto.
  - rewrite app_cons_s. simpl. destruct (startsWith _ sep); [eauto|].
    destruct (IH (a +:+ sep +:+ b) eq_refl) as [[a' b'] ->]. eauto.
Qed.

(** The leftmost occurrence really is the leftmost one. *)
Lemma cut_leftmost (sep s a b a2 b2 : string) :
  cut sep s = Some (a, b) → s = a2 +:+ sep +:+ b2 →
  (String.length a ≤ String.length a2)%nat.
Proof.
  revert a b a2. induction s as [|c s IH]; intros a b a2; simpl.
  - destruct (startsWith "" sep); [|done]. intros [= <- <-] _. simpl. lia.
  - destruct (startsWith (String c s) sep) eqn:E.
    + intros [= <- <-] _. simpl. lia.
    + destruct (cut sep s) as [[a' b']|] eqn:Hc; [|done].
      intros [= <- <-] H. destruct a2 as [|x a2].
      * rewrite app_nil_l_s in H. rewrite H, startsWith_app in E. discriminate E.
      * rewrite app_cons_s in H. injection H as _ H. simpl.
        specialize (IH a' b' a2 eq_refl H). lia.
Qed.

(** With a non-empty separator every cut leaves a strictly shorter rest,
    so the length of the string is enough fuel for [split_go]. *)
Lemma cut_shorter (sep s a b : string) :
  sep ≠ "" → cut sep s = Some (a, b) → (String.length b < String.length s)%nat.
Proof.
  intros Hsep H. apply cut_sound in H as ->.
  rewrite !length_app_s. destruct sep; [done | simpl; lia].
Qed.

Lemma split_go_fuel (sep : string) (n m : nat) (s : string) :
  sep ≠ "" → (String.length s ≤ n)%nat → (String.length s ≤ m)%nat →
  split_go n sep s = split_go m sep s.
Proof.
  intros Hsep. revert m s. induction n as [|n IH]; intros m s Hn Hm.
  - destruct s; [|simpl in Hn; lia]. destruct m; cbn [split_go]; [done|].
    destruct (cut sep "") as [[a b]|] eqn:E; [|done].
    apply cut_shorter in E; [simpl in E; lia | done].
  - destruct m as [|m]; cbn [split_go].
    + destruct s; [|simpl in Hm; lia].
      destruct (cut sep "") as [[a b]|] eqn:E; [|done].
      apply cut_shorter in E; [simpl in E; lia | done].
    + destruct (cut sep s) as [[a b]|] eqn:E; [|done].
      pose proof (cut_shorter _ _ _ _ Hsep E). f_equal. apply IH; lia.
Qed.

End string_facts.


(** ** Selection and search *)

Section catalog_facts.

Import Catalog.

Lemma render_fold (l : list grid_item) (lis : list string) (count : nat) :
  foldl (λ '(lis, count) item, ((lis ++ [name_or_empty item])%list, S count))
        (lis, count) l
  = ((lis ++ (name_or_empty <$> l))%list, (count + length l)%nat).
Proof.
  revert lis count. induction l as [|it l IH]; intros lis count; simpl.
  - by rewrite app_nil_r, Nat.add_0_r.
  - rewrite IH, <- app_assoc. simpl. f_equal. lia.
Qed.

(** [updateSelectedList] in closed form: it lists the entries that carry
    the [selected] class. *)
Lemma updateSelectedList_eq (p : page) :
  let sel := filter (λ it, has_class "selected" it = true) (items p) in
  updateSelectedList p =
  Page (items p) (name_or_empty <$> sel)
       (pretty (length sel)) ("Selected: " +:+ pretty (length sel)).
Proof. unfold updateSelectedList. rewrite render_fold. reflexivity. Qed.

Lemma updateSelectedList_items (p : page) : items (updateSelectedList p) = items p.
Proof. by rewrite updateSelectedList_eq. Qed.

Lemma filter_in_sync (l : list grid_item) :
  Forall in_sync l →
  filter (λ it, has_class "selected" it = true) l = filter (λ it, checked it = true) l.
Proof.
  induction 1 as [|it l Hit _ IH]; [done|].
  rewrite !filter_cons, IH. unfold in_sync in Hit. rewrite Hit.
  by repeat case_decide.
Qed.

Lemma updateSelectedList_rendered (p : page) :
  Forall in_sync (items p) → rendered (updateSelectedList p).
Proof.
  intros Hs. rewrite updateSelectedList_eq. unfold rendered, snapshot. simpl.
  rewrite (filter_in_sync _ Hs), !length_fmap. done.
Qed.

Lemma toggle_in_sync (it : grid_item) :
  in_sync it → in_sync (set_checked (negb (checked it)) (classList_toggle "selected" it)).
Proof.
  unfold in_sync, classList_toggle, has_class. intros H.
  destruct (bool_decide ("selected" ∈ classList it)) eqn:E; simpl; rewrite <- H.
  - apply bool_decide_eq_true in E. apply bool_decide_eq_false.
    rewrite elem_of_difference, elem_of_singleton. tauto.
  - apply bool_decide_eq_false in E. apply bool_decide_eq_true.
    rewrite elem_of_union, elem_of_singleton. tauto.
Qed.

Lemma selectAll_in_sync (it : grid_item) :
  in_sync (set_checked true (classList_add "selected" it)).
Proof. unfold in_sync, has_class. simpl. apply bool_decide_eq_true. set_solver. Qed.

Lemma deselectAll_in_sync (it : grid_item) :
  in_sync (set_checked false (classList_remove "selected" it)).
Proof.
  unfold in_sync, has_class. simpl. apply bool_decide_eq_false.
  rewrite elem_of_difference, elem_of_singleton. tauto.
Qed.

(** Every operation keeps class and checkbox in agreement. *)
Lemma run_in_sync (p : page) (o : operation) :
  Forall in_sync (items p) → Forall in_sync (items (run p o)).
Proof.
  intros Hs. destruct o as [i| |]; simpl;
    unfold toggleSelection, selectAll, deselectAll;
    rewrite updateSelectedList_items; simpl.
  - apply Forall_alter; [done|]. intros it _.
    rewrite Forall_forall in Hs. intros Hin. revert Hin. apply toggle_in_sync.
  - apply Forall_fmap, Forall_forall. intros it _. apply selectAll_in_sync.
  - apply Forall_fmap, Forall_forall. intros it _. apply deselectAll_in_sync.
Qed.

Lemma run_all_in_sync (ops : list operation) (p : page) :
  Forall in_sync (items p) → Forall in_sync (items (foldl run p ops)).
Proof.
  revert p. induction ops as [|o ops IH]; intros p Hs; simpl; [done|].
  by apply IH, run_in_sync.
Qed.

Lemma run_eq_update (p : page) (o : operation) :
  ∃ q, run p o = updateSelectedList q.
Proof. destruct o; simpl; eexists; reflexivity. Qed.

(** Page load puts an entry in agreement when its markup does not carry
    the [selected] class without a checked checkbox. *)
Lemma onDOMContentLoaded_in_sync (p : page) :
  Forall (λ it, has_class "selected" it = true → checked it = true) (items p) →
  Forall in_sync (items (onDOMContentLoaded p)).
Proof.
  intros H. unfold onDOMContentLoaded. rewrite updateSelectedList_items. simpl.
  apply Forall_fmap. eapply Forall_impl; [exact H|]. intros it Hit. simpl.
  unfold in_sync. destruct (checked it) eqn:E.
  - unfold has_class. simpl. rewrite E. apply bool_decide_eq_true. set_solver.
  - simpl in Hit. rewrite E in *. destruct (has_class "selected" it); [by symmetry; apply Hit | done].
Qed.

(** The lower-cased inclusion test of the search box is a case-insensitive
    substring test. *)
Lemma includes_lower_ci (name q : string) :
  includes (toLowerCase name) (toLowerCase q) = true ↔ ci_substring name q.
Proof.
  rewrite includes_spec. split.
  - intros (pre & post & H).
    apply toLowerCase_app_inv in H as (s1 & s23 & -> & H1 & H23).
    apply toLowerCase_app_inv in H23 as (s2 & s3 & -> & H2 & H3).
    by exists s1, s2, s3.
  - intros (pre & mid & post & -> & H).
    exists (toLowerCase pre), (toLowerCase post).
    by rewrite !toLowerCase_app, H.
Qed.

Lemma show_if_match_display (value : string) (it : grid_item) :
  display (show_if_match (toLowerCase value) it)
  = if includes (toLowerCase (name_or_empty it)) (toLowerCase value)
    then "block" else "none".
Proof.
  unfold show_if_match, name_or_empty. destruct (data_name it) as [n|].
  - by destruct (includes (toLowerCase n) (toLowerCase value)).
  - change (toLowerCase "") with "".
    by destruct (includes "" (toLowerCase value)).
Qed.

Lemma show_if_match_frame (query : string) (it : grid_item) :
  data_name (show_if_match query it) = data_name it ∧
  classList (show_if_match query it) = classList it ∧
  checked (show_if_match query it) = checked it.
Proof. unfold show_if_match. by destruct (includes _ _). Qed.

Lemma filter_show_if_match {B} (query : string) (P : grid_item → bool)
    (g : grid_item → B) (l : list grid_item) :
  (∀ it, P (show_if_match query it) = P it) →
  (∀ it, g (show_if_match query it) = g it) →
  g <$> filter (λ it, P it = true) (show_if_match query <$> l)
  = g <$> filter (λ it, P it = true) l.
Proof.
  intros HP Hg. induction l as [|it l IH]; [done|].
  rewrite fmap_cons, !filter_cons, HP.
  case_decide; [|done]. by rewrite !fmap_cons, Hg, IH.
Qed.

Lemma has_class_show_if_match (c query : string) (it : grid_item) :
  has_class c (show_if_match query it) = has_class c it.
Proof.
  unfold has_class. by destruct (show_if_match_frame query it) as (_ & -> & _).
Qed.

Lemma name_show_if_match (query : string) (it : grid_item) :
  name_or_empty (show_if_match query it) = name_or_empty it.
Proof.
  unfold name_or_empty. by destruct (show_if_match_frame query it) as (-> & _).
Qed.

(** C4. After every operation of any sequence of [toggleSelection],
    [selectAll] and [deselectAll] calls, on a page whose entries start with
    class and checkbox in agreement, the page shows the selection: the list
    holds the names of the checked entries in catalog order and both count
    labels hold their number.  The render is part of the operation itself
    ([run] returns the page already rendered). *)
Theorem selection_rendered_after_each_operation
    (p : page) (ops : list operation) (o : operation) :
  Forall in_sync (items p) → rendered (run (foldl run p ops) o).
Proof.
  intros Hs.
  pose proof (run_in_sync _ o (run_all_in_sync ops p Hs)) as Hs'.
  destruct (run_eq_update (foldl run p ops) o) as [q Hq].
  rewrite Hq in *. rewrite updateSelectedList_items in Hs'.
  by apply updateSelectedList_rendered.
Qed.

Lemma selection_rendered_after_each_operation_witness :
  let p := Page [GridItem (Some "Stone") ∅ false "block";
                 GridItem (Some "Wool") {["selected"]} true "none";
                 GridItem (Some "Glass") ∅ false "block"] [] "" "" in
  Forall in_sync (items p) ∧
  rendered (run (foldl run p [Toggle 2; DeselectAll; Toggle 0]) SelectAll).
Proof.
  split.
  - repeat constructor.
  - apply selection_rendered_after_each_operation. repeat constructor.
Defined.

(** C5 (as the specification words it). The query is not trimmed: an entry
    whose name contains the trimmed query, but not the query as typed, is
    hidden. *)
Lemma search_query_is_not_trimmed :
  let p := Page [GridItem (Some "a") ∅ false "block"] [] "0" "Selected: 0" in
  spec_matches "a" " a" ∧
  display <$> items (onKeyup " a" p) = ["none"].
Proof.
  split; [|reflexivity].
  exists "", "a", "". split; reflexivity.
Qed.

(** C5 (amended). For a query and names made of ASCII characters,
    [onKeyup] matches the query as typed, lower-cased but not trimmed,
    against each entry's name without regard to the case of the letters A
    to Z: an entry whose name contains the query becomes visible
    ([display] is [block]), any other entry is hidden ([display] is
    [none]).  Nothing is said of the match for text outside ASCII.
    Whatever the text, the catalog keeps its entries and the empty query
    shows every entry. *)
Theorem search_shows_exactly_the_matches (value : string) (p : page) :
  length (items (onKeyup value p)) = length (items p) ∧
  (ascii_text value = true →
   ∀ i it, items p !! i = Some it → ascii_text (name_or_empty it) = true →
     ∃ it', items (onKeyup value p) !! i = Some it' ∧
       (ci_substring (name_or_empty it) value → display it' = "block") ∧
       (¬ ci_substring (name_or_empty it) value → display it' = "none")) ∧
  Forall (λ it, display it = "block") (items (onKeyup "" p)).
Proof.
  unfold onKeyup. simpl. split; [by rewrite length_fmap|]. split.
  - intros _ i it Hi _. exists (show_if_match (toLowerCase value) it).
    rewrite list_lookup_fmap, Hi. split; [done|].
    rewrite show_if_match_display, <- includes_lower_ci.
    destruct (includes _ _); split; intros H; try done; by destruct H.
  - apply Forall_fmap, Forall_forall. intros it _. simpl.
    change "" with (toLowerCase "") at 1.
    by rewrite show_if_match_display, includes_empty.
Qed.

Lemma search_shows_exactly_the_matches_witness :
  let p := Page [GridItem (Some "Oak Planks") ∅ false "block";
                 GridItem (Some "Stone") {["selected"]} true "block"] [] "" "" in
  ∃ it', items (onKeyup "PLANK" p) !! 0%nat = Some it' ∧ display it' = "block".
Proof.
  intros p.
  destruct (search_shows_exactly_the_matches "PLANK" p) as (_ & H & _).
  destruct (H eq_refl 0%nat (GridItem (Some "Oak Planks") ∅ false "block")
              eq_refl eq_refl)
    as (it' & Hit' & Hshow & _).
  exists it'. split; [exact Hit'|]. apply Hshow.
  exists "Oak ", "Plank", "s". split; reflexivity.
Defined.

(** C6. Filtering writes only [style.display]: names, classes and
    checkboxes of all entries, the rendered list and both count labels are
    left as they were, the selection snapshot is the same, and rendering
    again would show the same list and counts, hidden entries included;
    all this whatever the text of the query and of the names.  When no
    entry matches, for a query and names made of ASCII characters, every
    entry is hidden. *)
Theorem search_leaves_selection_alone (value : string) (p : page) :
  let p' := onKeyup value p in
  data_name <$> items p' = data_name <$> items p ∧
  classList <$> items p' = classList <$> items p ∧
  checked <$> items p' = checked <$> items p ∧
  selected_list p' = selected_list p ∧
  selected_items_count p' = selected_items_count p ∧
  selected_count p' = selected_count p ∧
  snapshot p' = snapshot p ∧
  selected_list (updateSelectedList p') = selected_list (updateSelectedList p) ∧
  selected_items_count (updateSelectedList p')
    = selected_items_count (updateSelectedList p) ∧
  selected_count (updateSelectedList p') = selected_count (updateSelectedList p) ∧
  (ascii_text value = true →
   Forall (λ it, ascii_text (name_or_empty it) = true) (items p) →
   (∀ it, it ∈ items p → ¬ ci_substring (name_or_empty it) value) →
   Forall (λ it, display it = "none") (items p')).
Proof.
  assert (∀ {B} (g : grid_item → B),
            (∀ it, g (show_if_match (toLowerCase value) it) = g it) →
            g <$> (show_if_match (toLowerCase value) <$> items p) = g <$> items p)
    as Hframe.
  { intros B g Hg. rewrite <- list_fmap_compose.
    apply list_fmap_ext. intros i it _. apply Hg. }
  assert (name_or_empty
            <$> filter (λ it, has_class "selected" it = true) (items (onKeyup value p))
          = name_or_empty
            <$> filter (λ it, has_class "selected" it = true) (items p)) as Hsel.
  { apply (filter_show_if_match _ (has_class "selected")).
    - apply has_class_show_if_match.
    - apply name_show_if_match. }
  pose proof (f_equal length Hsel) as Hlen. rewrite !length_fmap in Hlen.
  intros p'. subst p'. repeat split.
  - apply Hframe. intros it. apply show_if_match_frame.
  - apply Hframe. intros it. apply show_if_match_frame.
  - apply Hframe. intros it. apply show_if_match_frame.
  - unfold snapshot. apply (filter_show_if_match _ checked).
    + intros it. apply show_if_match_frame.
    + apply name_show_if_match.
  - rewrite !updateSelectedList_eq. exact Hsel.
  - rewrite !updateSelectedList_eq. cbv [selected_items_count]. by rewrite Hlen.
  - rewrite !updateSelectedList_eq. cbv [selected_count]. by rewrite Hlen.
  - intros _ _ Hnone. apply Forall_fmap, Forall_forall. intros it Hin. simpl.
    rewrite show_if_match_display.
    destruct (includes _ _) eqn:E; [|done].
    apply includes_lower_ci in E. by destruct (Hnone it Hin).
Qed.

Lemma search_leaves_selection_alone_witness :
  let p := Page [GridItem (Some "Stone") {["selected"]} true "block";
                 GridItem (Some "Wool") ∅ false "block"]
                ["Stone"] "1" "Selected: 1" in
  Forall (λ it, display it = "none") (items (onKeyup "xyz" p)) ∧
  selected_list (updateSelectedList (onKeyup "xyz" p)) = ["Stone"] ∧
  selected_count (onKeyup "xyz" p) = "Selected: 1".
Proof.
  intros p.
  destruct (search_leaves_selection_alone "xyz" p)
    as (_ & _ & _ & _ & _ & Hc & _ & Hl & _ & _ & Hnone).
  split; [|split].
  - apply Hnone; [reflexivity | by repeat apply Forall_cons_2; try apply Forall_nil_2 |].
    intros it Hin (pre & mid & post & Hname & Hmid).
    assert (includes (toLowerCase (name_or_empty it)) (toLowerCase "xyz") = true) as E.
    { apply includes_lower_ci. by exists pre, mid, post. }
    apply elem_of_cons in Hin as [-> | Hin]; [discriminate E|].
    apply elem_of_cons in Hin as [-> | Hin]; [discriminate E|].
    by apply elem_of_nil in Hin.
  - rewrite Hl. reflexivity.
  - exact Hc.
Defined.

End catalog_facts.

(** ** Collapsible panels *)

Section panel_facts.

Import Panel.

Lemma filter_all {A} (P : A → Prop) `{!∀ x, Decision (P x)} (l : list A) :
  (∀ x, x ∈ l → P x) → filter P l = l.
Proof.
  induction l as [|x l IH]; intros Hall; [done|].
  rewrite filter_cons_True by (apply Hall; left). f_equal. apply IH.
  intros y Hy. apply Hall. by right.
Qed.

Lemma filter_none {A} (P : A → Prop) `{!∀ x, Decision (P x)} (l : list A) :
  (∀ x, x ∈ l → ¬ P x) → filter P l = [].
Proof.
  induction l as [|x l IH]; intros Hall; [done|].
  rewrite filter_cons_False by (apply Hall; left). apply IH.
  intros y Hy. apply Hall. by right.
Qed.

Lemma invoke_listeners (l : nat * completion) (d : details) :
  listeners (invoke l d) = filter (λ l', l'.1 ≠ l.1) (listeners d).
Proof. reflexivity. Qed.

Lemma elem_of_ids_filter (id id' : nat) (L : list (nat * completion)) :
  id' ≠ id → id' ∈ L.*1 → id' ∈ (filter (λ l', l'.1 ≠ id) L).*1.
Proof.
  intros Hne. rewrite !list_elem_of_fmap. intros (l & -> & Hl).
  exists l. split; [done|]. apply list_elem_of_filter. done.
Qed.

(** Dispatching to the listeners [L], all still registered and pairwise
    distinct: each is invoked once, in order, and unregisters itself. *)
Lemma dispatch_fold (L : list (nat * completion)) (d : details) :
  NoDup L.*1 → (∀ l, l ∈ L → l.1 ∈ (listeners d).*1) →
  let d' := foldl dispatch_to d L in
  listeners d' = filter (λ l, l.1 ∉ L.*1) (listeners d) ∧
  fired d' = (fired d ++ L.*1)%list ∧
  (Exists (λ l, l.2 = Collapsed) L → open d' = false) ∧
  (Forall (λ l, l.2 = Expanded) L → open d' = open d) ∧
  (L ≠ [] → style_height d' = "" ∧ style_transition d' = "").
Proof.
  revert d. induction L as [|l L IH]; intros d Hnd Hreg; cbn zeta; simpl.
  - repeat split.
    + symmetry. apply filter_all. intros x _. apply not_elem_of_nil.
    + by rewrite app_nil_r.
    + intros H. by apply Exists_nil in H.
    + done.
    + done.
  - rewrite fmap_cons in Hnd. apply NoDup_cons in Hnd as [Hl Hnd].
    assert (l.1 ∈ (listeners d).*1) as Hin by (apply Hreg; left).
    assert (dispatch_to d l = invoke l d) as ->
      by (unfold dispatch_to; by rewrite bool_decide_eq_true_2).
    destruct (IH (invoke l d) Hnd) as (HL & HF & HC & HE & HS).
    { intros l' Hl'. rewrite invoke_listeners. apply elem_of_ids_filter.
      - intros Heq. apply Hl. rewrite <- Heq. apply list_elem_of_fmap. eauto.
      - apply Hreg. by right. }
    repeat split.
    + rewrite HL, invoke_listeners, list_filter_filter.
      apply list_filter_iff. intros x. rewrite not_elem_of_cons. tauto.
    + rewrite HF. simpl. by rewrite <- app_assoc.
    + intros Hex. apply Exists_cons in Hex as [Hc | Hex]; [|by apply HC].
      destruct (decide (Exists (λ l0, l0.2 = Collapsed) L)) as [Hex|Hnex];
        [by apply HC|].
      rewrite HE; [simpl; by rewrite Hc|].
      apply Forall_forall. intros x Hx. destruct (x.2) eqn:E; [|done].
      destruct Hnex. apply Exists_exists. eauto.
    + intros Hall. apply Forall_cons in Hall as [He Hall].
      rewrite (HE Hall). simpl. by rewrite He.
    + destruct L as [|l2 L]; [by simpl | by apply HS].
    + destruct L as [|l2 L]; [by simpl | by apply HS].
Qed.

Lemma onTransitionEnd_spec (d : details) :
  NoDup (listeners d).*1 →
  listeners (onTransitionEnd d) = [] ∧
  fired (onTransitionEnd d) = (fired d ++ (listeners d).*1)%list ∧
  (Exists (λ l, l.2 = Collapsed) (listeners d) → open (onTransitionEnd d) = false) ∧
  (Forall (λ l, l.2 = Expanded) (listeners d) →
   open (onTransitionEnd d) = open d) ∧
  (listeners d ≠ [] →
   style_height (onTransitionEnd d) = "" ∧ style_transition (onTransitionEnd d) = "").
Proof.
  intros Hnd.
  destruct (dispatch_fold (listeners d) d Hnd) as (HL & HF & HC & HE & HS).
  { intros l Hl. apply list_elem_of_fmap. eauto. }
  repeat split; try done; try (by apply HS).
  unfold onTransitionEnd.
  rewrite HL. apply filter_none. intros l Hl Hn. apply Hn, list_elem_of_fmap. eauto.
Qed.

Lemma clicks_cons (e : event) (evs : list event) :
  clicks (e :: evs) = ((if is_click e then 1 else 0) + clicks evs)%nat.
Proof. unfold clicks. rewrite filter_cons. by destruct e. Qed.

(** What a run of clicks and animation frames, with no [transitionend] in
    between, leaves registered: one new listener per click, the first an
    expansion handler if the panel was closed, all others collapse
    handlers. *)
Lemma clicks_accumulate (evs : list event) (d : details) :
  Forall (λ e, is_transitionend e = false) evs →
  ∃ new,
    listeners (foldl step d evs) = (listeners d ++ new)%list ∧
    new.*1 = seq (next_listener d) (clicks evs) ∧
    fired (foldl step d evs) = fired d ∧
    open (foldl step d evs) = (if clicks evs is 0%nat then open d else true) ∧
    (open d = true → Forall (λ l, l.2 = Collapsed) new) ∧
    (open d = false →
     new = [] ∨ ∃ rest, new = (next_listener d, Expanded) :: rest ∧
                        Forall (λ l, l.2 = Collapsed) rest).
Proof.
  revert d. induction evs as [|e evs IH]; intros d Hev.
  - exists []. cbn [foldl]. rewrite app_nil_r. repeat split; auto.
  - apply Forall_cons in Hev as [He Hev]. rewrite clicks_cons. cbn [foldl].
    destruct e as [sh fh| |]; [| |discriminate He]; cbn [step is_click Nat.add].
    + destruct (IH (onClick sh fh d) Hev) as (new & HL & Hids & Hf & Hop & Ho & _).
      assert (open (onClick sh fh d) = true) as Hopen
        by (unfold onClick; by destruct (open d) eqn:E).
      assert (next_listener (onClick sh fh d) = S (next_listener d)) as Hnext
        by (unfold onClick; by destruct (open d)).
      assert (fired (onClick sh fh d) = fired d) as Hfired
        by (unfold onClick; by destruct (open d)).
      assert (listeners (onClick sh fh d)
              = (listeners d
                   ++ [(next_listener d, if open d then Collapsed else Expanded)])%list)
        as Hlis by (unfold onClick; by destruct (open d)).
      exists ((next_listener d, if open d then Collapsed else Expanded) :: new).
      rewrite HL, Hlis, <- app_assoc, Hf, Hfired, Hop, Hopen.
      split; [done|]. split; [by rewrite fmap_cons, Hids, Hnext|].
      split; [done|]. split; [by destruct (clicks evs)|]. split.
      * intros E. rewrite E. constructor; [done | by apply Ho].
      * intros E. rewrite E. right. exists new. split; [done | by apply Ho].
    + destruct (IH (onAnimationFrame d) Hev) as (new & HL & Hids & Hf & Hop & Ho & Hc).
      exists new. done.
Qed.

(** C8 (as the specification words it). A second click before the
    transition has completed leaves two completion handlers registered at
    the same time: the earlier one is not removed. *)
Lemma double_click_registers_two_handlers :
  let d := Details false "" "" [] [] 0 [] in
  at_rest d ∧
  listeners (foldl step d [Click 30 120; Click 30 120])
  = [(0%nat, Expanded); (1%nat, Collapsed)].
Proof. split; reflexivity. Qed.

(** C8 (amended). Starting from a panel with no handler registered, every
    click registers exactly one new [transitionend] handler and removes
    none, so after [n] clicks without a [transitionend] event [n] handlers
    are registered.  The next [transitionend] event invokes each of them
    exactly once, in registration order, and leaves none registered; it
    clears the explicit height and transition.  After a single click the
    panel has changed state; after two or more clicks it ends closed. *)
Theorem panel_handlers_accumulate_until_transitionend
    (d : details) (evs : list event) :
  at_rest d → Forall (λ e, is_transitionend e = false) evs →
  let d1 := foldl step d evs in
  let d2 := onTransitionEnd d1 in
  (listeners d1).*1 = seq (next_listener d) (clicks evs) ∧
  listeners d2 = [] ∧
  fired d2 = (fired d ++ seq (next_listener d) (clicks evs))%list ∧
  (1 ≤ clicks evs → style_height d2 = "" ∧ style_transition d2 = "")%nat ∧
  (clicks evs = 1%nat → open d2 = negb (open d)) ∧
  (2 ≤ clicks evs → open d2 = false)%nat.
Proof.
  intros Hrest Hev d1 d2. subst d1 d2.
  destruct (clicks_accumulate evs d Hev) as (new & HL & Hids & Hf & Hop & Ho & Hc).
  unfold at_rest in Hrest. rewrite Hrest in HL. cbn [app] in HL.
  assert (NoDup (listeners (foldl step d evs)).*1) as Hnd
    by (rewrite HL, Hids; apply NoDup_seq).
  destruct (onTransitionEnd_spec _ Hnd) as (HL2 & HF2 & HC2 & HE2 & HS2).
  rewrite HF2, Hf, HL, Hids. rewrite HL in HC2, HE2, HS2.
  assert ((1 ≤ clicks evs)%nat → new ≠ []) as Hne.
  { intros H1 ->. rewrite fmap_nil in Hids. destruct (clicks evs); [lia | done]. }
  split; [done|]. split; [done|]. split; [done|]. split; [|split].
  - intros H1. by apply HS2, Hne.
  - intros H1. rewrite H1 in Hids, Hop. destruct (open d) eqn:E.
    + apply HC2. destruct new as [|l new]; [done|].
      left. specialize (Ho eq_refl). by apply Forall_cons in Ho as [? _].
    + destruct (Hc eq_refl) as [-> | (rest & -> & Hrest')]; [done|].
      destruct rest; [|done]. rewrite HE2, Hop by (by repeat constructor). done.
  - intros H2. apply HC2. destruct (open d) eqn:E.
    + specialize (Ho eq_refl). destruct new as [|l new]; [destruct Hne; [lia|done]|].
      left. by apply Forall_cons in Ho as [? _].
    + destruct (Hc eq_refl) as [-> | (rest & -> & Hrest')];
        [destruct Hne; [lia|done]|].
      right. destruct rest as [|l rest].
      * rewrite fmap_cons, fmap_nil in Hids.
        destruct (clicks evs) as [|[|c]]; [lia | lia | done].
      * left. by apply Forall_cons in Hrest' as [? _].
Qed.

Lemma panel_handlers_accumulate_until_transitionend_witness :
  let d := Details false "" "" [] [] 0 [] in
  let evs := [Click 30 120; AnimationFrame; Click 30 120] in
  at_rest d ∧ Forall (λ e, is_transitionend e = false) evs ∧
  length (listeners (foldl step d evs)) = 2%nat ∧
  listeners (onTransitionEnd (foldl step d evs)) = [] ∧
  fired (onTransitionEnd (foldl step d evs)) = [0; 1]%nat ∧
  open (onTransitionEnd (foldl step d evs)) = false.
Proof.
  intros d evs.
  assert (at_rest d) as Hrest by reflexivity.
  assert (Forall (λ e, is_transitionend e = false) evs) as Hev
    by (repeat constructor).
  destruct (panel_handlers_accumulate_until_transitionend d evs Hrest Hev)
    as (Hids & Hnone & Hfired & _ & _ & Hclosed).
  split; [exact Hrest|]. split; [exact Hev|]. split; [|split; [|split]].
  - rewrite <- (length_fmap fst), Hids. reflexivity.
  - exact Hnone.
  - exact Hfired.
  - apply Hclosed. unfold clicks. simpl. lia.
Defined.

End panel_facts.

(** ** Form submission *)

Section download_name_facts.

Import Submission.

Lemma app_inv_length_s (a b x y : string) :
  a +:+ x = b +:+ y → String.length a = String.length b → a = b ∧ x = y.
Proof.
  revert b. induction a as [|c a IH]; intros [|c' b] H Hlen; try discriminate Hlen.
  - done.
  - rewrite !app_cons_s in H. injection H as -> H. injection Hlen as Hlen.
    destruct (IH b H Hlen) as [-> ->]. done.
Qed.

(** The cut is at the leftmost occurrence, whichever way it is described. *)
Lemma cut_leftmost_eq (tok h pre suf : string) :
  h = pre +:+ tok +:+ suf → leftmost tok pre h → cut tok h = Some (pre, suf).
Proof.
  intros Hh Hleft.
  destruct (cut_complete tok h pre suf Hh) as [[a b] Hcut].
  pose proof (cut_sound _ _ _ _ Hcut) as Hab.
  pose proof (cut_leftmost _ _ _ _ _ _ Hcut Hh) as Hle.
  pose proof (Hleft a b Hab) as Hge.
  rewrite Hh in Hab. apply app_inv_length_s in Hab as [-> Hab]; [|lia].
  apply app_inv_length_s in Hab as [_ ->]; [|done]. done.
Qed.

Lemma cut_absent (tok h : string) : includes h tok = false → cut tok h = None.
Proof.
  intros Hno. destruct (cut tok h) as [[a b]|] eqn:Hcut; [|done].
  apply cut_sound in Hcut. assert (includes h tok = true) as Hyes
    by (apply includes_spec; eauto). congruence.
Qed.

Lemma split_absent (tok h : string) :
  tok ≠ "" → includes h tok = false → split h tok = [h].
Proof.
  intros Htok Hno. unfold split. destruct tok as [|c tok]; [done|].
  destruct (String.length h); cbn [split_go]; [done|].
  by rewrite (cut_absent _ _ Hno).
Qed.

(** The second piece of the split: the text between the first occurrence
    of the separator and the next one, or the end of the string. *)
Lemma split_second (tok h pre suf : string) :
  tok ≠ "" → h = pre +:+ tok +:+ suf → leftmost tok pre h →
  (includes suf tok = false → split h tok !! 1%nat = Some suf) ∧
  (∀ mid rest, suf = mid +:+ tok +:+ rest → leftmost tok mid suf →
               split h tok !! 1%nat = Some mid).
Proof.
  intros Htok Hh Hleft. unfold split. destruct tok as [|c tok]; [done|].
  assert (String.length h = S (String.length pre + String.length tok
                               + String.length suf)) as Hlen.
  { rewrite Hh, !length_app_s. simpl. lia. }
  rewrite Hlen. cbn [split_go]. rewrite (cut_leftmost_eq _ _ _ _ Hh Hleft).
  split.
  - intros Hno. destruct (_ + _ + _)%nat; cbn [split_go]; [done|].
    by rewrite (cut_absent _ _ Hno).
  - intros mid rest Hsuf Hmid.
    assert (String.length pre + String.length tok + String.length suf
            = S (String.length pre + String.length tok + String.length mid
                 + String.length tok + String.length rest))%nat as ->.
    { rewrite Hsuf, !length_app_s. simpl. lia. }
    cbn [split_go]. by rewrite (cut_leftmost_eq _ _ _ _ Hsuf Hmid).
Qed.

(** C7 (as the specification words it). With two occurrences of the token
    the saved name is not the text after [filename=]: it stops at the
    second occurrence. *)
Lemma download_name_is_not_the_text_after_the_token :
  ¬ ∀ h pre suf, h = pre +:+ "filename=" +:+ suf → download_name (Some h) = suf.
Proof.
  intros H.
  pose proof (H "attachment; filename=a.zip; filename=b.zip"
                "attachment; " "a.zip; filename=b.zip" eq_refl) as H1.
  vm_compute in H1. discriminate H1.
Qed.

(** C7 (amended). The saved name is the text between the first occurrence
    of [filename=] in the [content-disposition] header and the next
    occurrence, or the end of the header when there is no other; when the
    header is missing, does not contain [filename=], or that text is empty,
    the name is [datapack.zip].  In particular the header
    [attachment; filename=datapack.zip] gives [datapack.zip]. *)
Theorem download_name_between_first_two_tokens :
  download_name None = "datapack.zip" ∧
  (∀ h, includes h "filename=" = false → download_name (Some h) = "datapack.zip") ∧
  (∀ h pre suf,
     h = pre +:+ "filename=" +:+ suf → leftmost "filename=" pre h →
     (includes suf "filename=" = false →
      download_name (Some h) = or_default (Some suf)) ∧
     (∀ mid rest,
        suf = mid +:+ "filename=" +:+ rest → leftmost "filename=" mid suf →
        download_name (Some h) = or_default (Some mid))) ∧
  or_default (Some "") = "datapack.zip" ∧
  (∀ name, name ≠ "" → or_default (Some name) = name) ∧
  download_name (Some "attachment; filename=datapack.zip") = "datapack.zip".
Proof.
  split; [done|]. split; [|split; [|split; [done|split; [|done]]]].
  - intros h Hno. unfold download_name. by rewrite split_absent.
  - intros h pre suf Hh Hleft.
    destruct (split_second "filename=" h pre suf) as [H1 H2]; try done.
    unfold download_name. split.
    + intros Hno. by rewrite H1.
    + intros mid rest Hsuf Hmid. by rewrite (H2 mid rest).
  - intros [|c name] Hne; done.
Qed.

Lemma download_name_between_first_two_tokens_witness :
  download_name (Some "attachment; filename=recipes.zip") = "recipes.zip".
Proof.
  destruct download_name_between_first_two_tokens as (_ & _ & H & _).
  destruct (H "attachment; filename=recipes.zip" "attachment; " "recipes.zip")
    as [Hend _].
  - reflexivity.
  - intros pre2 suf2 Heq.
    destruct (decide (String.length "attachment; " ≤ String.length pre2)%nat)
      as [Hle|Hgt]; [exact Hle | exfalso].
    assert (String.length pre2 < 12)%nat as Hlt by (simpl in Hgt; lia).
    do 12 (destruct pre2 as [|? pre2]; [by vm_compute in Heq|]).
    simpl in Hlt. lia.
  - rewrite Hend; reflexivity.
Defined.

End download_name_facts.

Section submission_facts.

Import Submission.

(** *** Tame statements *)

Lemma has_class_ext (c : string) (els els' : gmap nat element) (n : node) :
  (∀ id, classes <$> els' !! id = classes <$> els !! id) →
  has_class c els' n = has_class c els n.
Proof.
  intros H. destruct n as [d|id]; [done|]. simpl. specialize (H id).
  destruct (els' !! id), (els !! id); simpl in H; try done.
  by injection H as ->.
Qed.

Lemma length_filter_sublist {A} (P : A → Prop) `{!∀ x, Decision (P x)}
    (l1 l2 : list A) :
  l1 `sublist_of` l2 → (length (filter P l1) ≤ length (filter P l2))%nat.
Proof.
  induction 1 as [|x l1 l2 _ IH|x l1 l2 _ IH]; [done| |];
    rewrite ?filter_cons; repeat case_decide; simpl; lia.
Qed.

Lemma filter_class_text (c : string) (els : gmap nat element) (l : list node) :
  Forall is_text l → filter (λ n, has_class c els n = true) l = [].
Proof.
  intros H. apply filter_none. intros n Hn.
  rewrite Forall_forall in H. specialize (H n Hn). by destruct n.
Qed.

Lemma count_class_text (c : string) (s : state) :
  Forall is_text (childNodes (btn s)) → count_class c s = 0%nat.
Proof.
  intros H. unfold count_class, children_with_class.
  by rewrite filter_class_text.
Qed.

Lemma tame_count (f : state → state) (c : string) (s : state) :
  tame f → (count_class c (f s) ≤ count_class c s)%nat.
Proof.
  intros Hf. destruct (Hf s) as (_ & Hcls & [Hsub | Htext]).
  - unfold count_class, children_with_class.
    rewrite (list_filter_iff _ (λ n, has_class c (objects s) n = true)).
    + by apply length_filter_sublist.
    + intros n. by rewrite (has_class_ext c _ _ n Hcls).
  - rewrite count_class_text by done. lia.
Qed.

Lemma tame_consistent (f : state → state) (s : state) :
  tame f → consistent s → consistent (f s).
Proof.
  intros Hf [Hch Hid]. destruct (Hf s) as (Hnext & Hcls & Hkids).
  assert (∀ id, is_Some (objects (f s) !! id) ↔ is_Some (objects s !! id)) as Hsome.
  { intros id. specialize (Hcls id). rewrite <- !fmap_is_Some with (f := classes).
    by rewrite Hcls. }
  split.
  - intros id Hin. apply Hsome. destruct Hkids as [Hsub | Htext].
    + apply Hch. eapply elem_of_sublist; [exact Hin | exact Hsub].
    + rewrite Forall_forall in Htext. by destruct (Htext _ Hin).
  - intros id Hin. rewrite Hnext. by apply Hid, Hsome.
Qed.

Lemma tame_text (f : state → state) (s : state) :
  tame f → Forall is_text (childNodes (btn s)) → Forall is_text (childNodes (btn (f s))).
Proof.
  intros Hf Ht. destruct (Hf s) as (_ & _ & [Hsub | Htext]); [|done].
  apply Forall_forall. intros n Hn. rewrite Forall_forall in Ht.
  apply Ht. eapply elem_of_sublist; [exact Hn | exact Hsub].
Qed.

Lemma tame_upd_btn (g : button → button) :
  (∀ b, childNodes (g b) `sublist_of` childNodes b ∨ Forall is_text (childNodes (g b))) →
  tame (upd_btn g).
Proof. intros Hg s. repeat split; try done. apply Hg. Qed.

Lemma tame_set_disabled (v : bool) : tame (set_disabled v).
Proof. apply tame_upd_btn. intros b. by left. Qed.

Lemma tame_classList_add (c : string) : tame (classList_add c).
Proof. apply tame_upd_btn. intros b. by left. Qed.

Lemma tame_classList_remove (c : string) : tame (classList_remove c).
Proof. apply tame_upd_btn. intros b. by left. Qed.

Lemma tame_set_textContent (v : string) : tame (set_textContent v).
Proof.
  apply tame_upd_btn. intros b. right. destruct v; simpl; repeat constructor.
Qed.

Lemma tame_remove (id : nat) : tame (remove id).
Proof. apply tame_upd_btn. intros b. left. apply sublist_filter. Qed.

Lemma tame_upd_elem (id : nat) (g : element → element) :
  (∀ e, classes (g e) = classes e) → tame (upd_elem id g).
Proof.
  intros Hg s. repeat split; [|by left]. intros id'. simpl.
  rewrite lookup_alter. case_decide as E; [subst id'|done].
  destruct (objects s !! id); simpl; [by rewrite Hg | done].
Qed.

Lemma tame_upd_run (k : nat) (g : run → run) : tame (upd_run k g).
Proof. intros s. repeat split; try done. by left. Qed.

Lemma tame_with_run (k : nat) (g : run → state → state) :
  (∀ r, tame (g r)) → tame (with_run k g).
Proof.
  intros Hg s. unfold with_run. destruct (runs s !! k); [apply Hg|].
  repeat split; try done. by left.
Qed.

Lemma tame_save (name : string) :
  tame (λ s, State (btn s) (objects s) (next_id s) (runs s) (saved s ++ [name])).
Proof. intros s. repeat split; try done. by left. Qed.

Lemma tame_set_display (id : nat) (v : string) : tame (upd_elem id (set_display v)).
Proof. by apply tame_upd_elem. Qed.

Lemma tame_set_strokeDashoffset (id : nat) (o : dashoffset) :
  tame (upd_elem id (set_strokeDashoffset o)).
Proof. by apply tame_upd_elem. Qed.

Create HintDb tame.

#[local] Hint Resolve tame_set_disabled tame_classList_add tame_classList_remove
  tame_set_textContent tame_remove tame_upd_run tame_save tame_with_run
  tame_set_display tame_set_strokeDashoffset : tame.

Ltac tame_statements :=
  repeat first [apply Forall_nil_2 | apply Forall_cons_2 | apply Forall_app_2];
  auto with tame.

Lemma tame_tick (k : nat) : Forall tame (tick k).
Proof. unfold tick. tame_statements. Qed.

Lemma tame_success (k : nat) (cd : option string) : Forall tame (success k cd).
Proof. unfold success. tame_statements. Qed.

Lemma tame_download (k : nat) (cd : option string) : Forall tame (download k cd).
Proof. unfold download. tame_statements. Qed.

Lemma tame_catch (k : nat) : Forall tame (catch k).
Proof. unfold catch. tame_statements. Qed.

Lemma tame_reset (src : source) (k : nat) (o : outcome) (r : run) :
  Forall tame (reset src k o r).
Proof. unfold reset. destruct (originalText_in_scope src o r); tame_statements. Qed.

(** Every callback other than the submit handler is made of tame
    statements. *)
Lemma tame_handler (src : source) (s : state) (ev : event)
    (stmts : list (state → state)) :
  handler src s ev = Some stmts → ev ≠ Submit → Forall tame stmts.
Proof.
  intros H Hev. destruct ev as [|k|k status cd|k|k|k|k]; [done|..]; simpl in H.
  - destruct (runs s !! k) as [r|]; [|done].
    destruct (progressInterval r); [|done]. injection H as <-. apply tame_tick.
  - destruct (stage_of <$> runs s !! k) as [[]|]; try done. injection H as <-.
    destruct (ok status); [apply tame_success | apply tame_catch].
  - destruct (stage_of <$> runs s !! k) as [[]|]; try done. injection H as <-.
    apply tame_catch.
  - destruct (stage_of <$> runs s !! k) as [[]|]; try done. injection H as <-.
    apply tame_download.
  - destruct (stage_of <$> runs s !! k) as [[]|]; try done. injection H as <-.
    apply tame_catch.
  - destruct (runs s !! k) as [r|]; [|done].
    destruct (stage_of r); try done. injection H as <-. apply tame_reset.
Qed.

(** *** Traces *)

Lemma trace_app (l1 l2 : list (state → state)) (s : state) :
  trace (l1 ++ l2) s = (trace l1 s ++ trace l2 (execute l1 s))%list.
Proof.
  revert s. induction l1 as [|f l1 IH]; intros s; [done|].
  simpl. by rewrite IH.
Qed.

Lemma execute_app (l1 l2 : list (state → state)) (s : state) :
  execute (l1 ++ l2) s = execute l2 (execute l1 s).
Proof. unfold execute. by rewrite foldl_app. Qed.

(** Tame statements keep the store consistent and let no class gain a
    child, at every point of their execution. *)
Lemma tame_trace (stmts : list (state → state)) (s : state) :
  Forall tame stmts → consistent s →
  Forall (λ s', consistent s' ∧ ∀ c, (count_class c s' ≤ count_class c s)%nat)
         (execute stmts s :: trace stmts s).
Proof.
  intros Hst. revert s. induction Hst as [|f stmts Hf _ IH]; intros s Hs.
  - apply Forall_cons_2; [|apply Forall_nil_2].
    split; [done|]. intros c. unfold execute. simpl. lia.
  - pose proof (tame_consistent f s Hf Hs) as Hfs.
    specialize (IH (f s) Hfs).
    assert (∀ s', (consistent s' ∧ ∀ c, (count_class c s' ≤ count_class c (f s))%nat) →
                  consistent s' ∧ ∀ c, (count_class c s' ≤ count_class c s)%nat) as Hweaken.
    { intros s' [H1 H2]. split; [done|]. intros c.
      pose proof (tame_count f c s Hf). specialize (H2 c). lia. }
    apply Forall_cons in IH as [IH1 IH2]. simpl.
    apply Forall_cons_2; [by apply Hweaken|].
    apply Forall_cons_2.
    + split; [done|]. intros c. by apply tame_count.
    + eapply Forall_impl; [exact IH2 | exact Hweaken].
Qed.

Lemma tame_execute_text (stmts : list (state → state)) (s : state) :
  Forall tame stmts → Forall is_text (childNodes (btn s)) →
  Forall is_text (childNodes (btn (execute stmts s))).
Proof.
  intros Hst. revert s. induction Hst as [|f stmts Hf _ IH]; intros s Hs; [done|].
  simpl. apply IH. by apply tame_text.
Qed.

(** *** The submit handler *)

Lemma has_class_insert (c : string) (els : gmap nat element) (id0 id : nat)
    (e : element) :
  id ≠ id0 → has_class c (<[id0:=e]> els) (Elem id) = has_class c els (Elem id).
Proof. intros Hne. simpl. by rewrite lookup_insert_ne. Qed.

Lemma filter_ext_elem {A} (P Q : A → Prop) `{!∀ x, Decision (P x)}
    `{!∀ x, Decision (Q x)} (l : list A) :
  (∀ x, x ∈ l → (P x ↔ Q x)) → filter P l = filter Q l.
Proof.
  induction l as [|x l IH]; intros Hext; [done|].
  rewrite !filter_cons, IH by (intros y Hy; apply Hext; by right).
  destruct (Hext x) as [H1 H2]; [by left|].
  repeat case_decide; try done; tauto.
Qed.

Lemma first_with_class_ext (c : string) (els els' : gmap nat element)
    (l : list node) :
  (∀ n, n ∈ l → has_class c els' n = has_class c els n) →
  first_with_class c els' l = first_with_class c els l.
Proof.
  induction l as [|[d|id] l IH]; intros H; [done| |].
  - simpl. apply IH. intros n Hn. apply H. by right.
  - cbn [first_with_class]. rewrite (H (Elem id)) by (by left).
    rewrite IH by (intros n Hn; apply H; by right). done.
Qed.

Lemma first_with_class_None (c : string) (els : gmap nat element) (l : list node) :
  first_with_class c els l = None →
  filter (λ n, has_class c els n = true) l = [].
Proof.
  induction l as [|[d|id] l IH]; intros H; [done| |].
  - rewrite filter_cons_False by done. by apply IH.
  - cbn [first_with_class] in H.
    destruct (has_class c els (Elem id)) eqn:E; [done|].
    rewrite filter_cons_False by (by rewrite E). by apply IH.
Qed.

Lemma first_with_class_Some (c : string) (els : gmap nat element) (l : list node)
    (r : nat) :
  first_with_class c els l = Some r → is_Some (els !! r).
Proof.
  induction l as [|[d|id] l IH]; intros H; [done| |].
  - by apply IH.
  - cbn [first_with_class] in H.
    destruct (has_class c els (Elem id)) eqn:E; [|by apply IH].
    injection H as <-. simpl in E. by destruct (els !! id).
Qed.

Lemma consistent_child_lt (s : state) (id : nat) :
  consistent s → Elem id ∈ childNodes (btn s) → (id < next_id s)%nat.
Proof. intros [Hch Hid] Hin. by apply Hid, Hch. Qed.

(** Creating an object leaves the classes of the children as they are. *)
Lemma has_class_alloc (c : string) (e : element) (s : state) (n : node) :
  consistent s → n ∈ childNodes (btn s) →
  has_class c (objects (alloc e s)) n = has_class c (objects s) n.
Proof.
  intros Hs Hn. destruct n as [d|id]; [done|].
  apply has_class_insert. pose proof (consistent_child_lt s id Hs Hn). lia.
Qed.

Lemma consistent_alloc (e : element) (s : state) :
  consistent s → consistent (alloc e s).
Proof.
  intros [Hch Hid]. split; simpl.
  - intros id Hin. rewrite lookup_insert. case_decide; [done | by apply Hch].
  - intros id. rewrite lookup_insert. case_decide as E.
    + intros _. lia.
    + intros H. specialize (Hid id H). lia.
Qed.

Lemma count_class_alloc (c : string) (e : element) (s : state) :
  consistent s → count_class c (alloc e s) = count_class c s.
Proof.
  intros Hs. unfold count_class, children_with_class. f_equal.
  apply filter_ext_elem. intros n Hn. by rewrite (has_class_alloc c e s n Hs Hn).
Qed.

Lemma querySelector_alloc (c : string) (e : element) (s : state) :
  consistent s → querySelector c (alloc e s) = querySelector c s.
Proof.
  intros Hs. unfold querySelector. apply first_with_class_ext.
  intros n Hn. by apply has_class_alloc.
Qed.

Lemma count_class_appendChild (c : string) (id : nat) (s : state) :
  count_class c (appendChild id s)
  = (count_class c s + if has_class c (objects s) (Elem id) then 1 else 0)%nat.
Proof.
  unfold count_class, children_with_class, appendChild, upd_btn.
  cbn [btn childNodes objects].
  rewrite filter_app, length_app. f_equal.
  rewrite filter_cons, filter_nil.
  destruct (has_class c (objects s) (Elem id)); by case_decide.
Qed.

Lemma consistent_appendChild (id : nat) (s : state) :
  consistent s → is_Some (objects s !! id) → consistent (appendChild id s).
Proof.
  intros [Hch Hid] Hsome. split; [|exact Hid]. simpl.
  intros id' Hin. apply elem_of_app in Hin as [Hin | Hin]; [by apply Hch|].
  apply list_elem_of_singleton in Hin. by injection Hin as ->.
Qed.

(** The first statement of the submit handler: what it creates and what it
    finds. *)
Lemma begin_submit_spec (src : source) (s : state) :
  consistent s →
  ∃ rg ot,
    runs (begin_submit src s)
    = (runs s ++ [Run (next_id s) rg ot 0 None Starting])%list ∧
    consistent (begin_submit src s) ∧
    classes <$> objects (begin_submit src s) !! next_id s = Some {["spinner"]} ∧
    is_Some (objects (begin_submit src s) !! rg) ∧
    count_class "spinner" (begin_submit src s) = count_class "spinner" s ∧
    match querySelector "progress-ring" s with
    | Some r =>
        rg = r ∧
        childNodes (btn (begin_submit src s)) = childNodes (btn s) ∧
        objects (begin_submit src s)
        = <[next_id s := Element {["spinner"]} "" "" Unset]> (objects s) ∧
        count_class "progress-ring" (begin_submit src s)
        = count_class "progress-ring" s
    | None =>
        rg = S (next_id s) ∧
        childNodes (btn (begin_submit src s))
        = (childNodes (btn s) ++ [Elem (S (next_id s))])%list ∧
        objects (begin_submit src s) !! S (next_id s) = Some (createProgressRing src) ∧
        count_class "progress-ring" s = 0%nat ∧
        count_class "progress-ring" (begin_submit src s) = 1%nat
    end.
Proof.
  intros Hs. unfold begin_submit.
  set (sp := Element {["spinner"]} "" "" Unset).
  pose proof (consistent_alloc sp s Hs) as Hs1.
  rewrite (querySelector_alloc _ sp s Hs).
  destruct (querySelector "progress-ring" s) as [r|] eqn:Hq.
  - eexists r, _. split; [reflexivity|]. split; [exact Hs1|].
    split; [simpl; by rewrite lookup_insert_eq|]. split.
    { simpl. rewrite lookup_insert. case_decide; [done|].
      by apply first_with_class_Some in Hq. }
    split; [apply (count_class_alloc "spinner" sp s Hs)|].
    split; [done|]. split; [done|]. split; [done|].
    apply (count_class_alloc "progress-ring" sp s Hs).
  - set (rg := createProgressRing src).
    pose proof (consistent_alloc rg _ Hs1) as Hs2.
    assert (is_Some (objects (alloc rg (alloc sp s)) !! S (next_id s))) as Hin
      by (simpl; by rewrite lookup_insert_eq).
    pose proof (consistent_appendChild _ _ Hs2 Hin) as Hs3.
    eexists (S (next_id s)), _. split; [reflexivity|]. split; [exact Hs3|].
    split; [simpl; rewrite lookup_insert_ne by lia; by rewrite lookup_insert_eq|].
    split; [exact Hin|].
    assert (∀ c, count_class c (appendChild (S (next_id s)) (alloc rg (alloc sp s)))
                 = (count_class c s + if bool_decide (c ∈ classes rg) then 1 else 0)%nat)
      as Hcount.
    { intros c. rewrite count_class_appendChild.
      rewrite (count_class_alloc c rg _ Hs1), (count_class_alloc c sp s Hs).
      f_equal. simpl. by rewrite lookup_insert_eq. }
    split; [|split; [done|split; [done|split; [simpl; by rewrite lookup_insert_eq|]]]].
    + change (count_class "spinner"
                (appendChild (S (next_id s)) (alloc rg (alloc sp s)))
              = count_class "spinner" s).
      rewrite Hcount. rewrite bool_decide_eq_false_2; [lia|].
      simpl. rewrite elem_of_singleton. done.
    + assert (count_class "progress-ring" s = 0%nat) as H0.
      { unfold count_class, children_with_class.
        by rewrite (first_with_class_None _ _ _ Hq). }
      split; [exact H0|].
      change (count_class "progress-ring"
                (appendChild (S (next_id s)) (alloc rg (alloc sp s))) = 1%nat).
      rewrite Hcount, H0. rewrite bool_decide_eq_true_2; [done|].
      simpl. by rewrite elem_of_singleton.
Qed.

Lemma Forall_execute_trace (P : state → Prop) (l1 l2 : list (state → state))
    (s : state) :
  Forall P (execute l1 s :: trace l1 s) →
  Forall P (execute l2 (execute l1 s) :: trace l2 (execute l1 s)) →
  Forall P (execute (l1 ++ l2) s :: trace (l1 ++ l2) s).
Proof.
  intros H1 H2. rewrite execute_app, trace_app.
  apply Forall_cons in H1 as [_ H1]. apply Forall_cons in H2 as [H2 H2'].
  apply Forall_cons_2; [done|]. by apply Forall_app_2.
Qed.

(** The states the submit handler passes through: never more than one
    ring among the children of the button, never more than one spinner
    beyond those it found, and in the end only text. *)
Lemma onsubmit_trace (src : source) (s : state) :
  consistent s →
  let stmts := onsubmit src (length (runs s)) in
  Forall (λ s', consistent s' ∧
                (count_class "progress-ring" s'
                 ≤ Nat.max 1 (count_class "progress-ring" s))%nat ∧
                (count_class "spinner" s' ≤ S (count_class "spinner" s))%nat)
         (execute stmts s :: trace stmts s) ∧
  Forall is_text (childNodes (btn (execute stmts s))).
Proof.
  intros Hs stmts. subst stmts.
  set (k := length (runs s)).
  destruct (begin_submit_spec src s Hs) as (rg & ot & Hruns & Hs2 & Hsp & Hrg & Hcs & Hq).
  set (s2 := begin_submit src s) in *.
  assert (count_class "progress-ring" s2
          ≤ Nat.max 1 (count_class "progress-ring" s))%nat as Hring2.
  { destruct (querySelector "progress-ring" s).
    - destruct Hq as (_ & _ & _ & ->). lia.
    - destruct Hq as (_ & _ & _ & _ & ->). lia. }
  set (A := [set_disabled true; classList_add "loading"]).
  set (s4 := execute A s2).
  assert (Forall tame A) as HA by (subst A; tame_statements).
  pose proof (tame_trace A s2 HA Hs2) as HtA. fold s4 in HtA.
  assert (runs s4 !! k = Some (Run (next_id s) rg ot 0 None Starting)) as Hk.
  { change (runs s4) with (runs s2). rewrite Hruns. subst k.
    by rewrite list_lookup_middle. }
  set (s5 := appendChild (next_id s) s4).
  assert (with_run k (λ r, appendChild (spinner r)) s4 = s5) as Happ
    by (unfold with_run; by rewrite Hk).
  assert (consistent s4) as Hs4 by (by apply Forall_cons in HtA as [[? _] _]).
  assert (classes <$> objects s4 !! next_id s = Some {["spinner"]}) as Hsp4 by exact Hsp.
  assert (consistent s5) as Hs5.
  { apply consistent_appendChild; [done|].
    apply (fmap_is_Some classes). by rewrite Hsp4. }
  assert (∀ c, count_class c s5
               = (count_class c s4 + if bool_decide (c ∈ ({["spinner"]} : gset string))
                                      then 1 else 0)%nat) as Hc5.
  { intros c. unfold s5. rewrite count_class_appendChild. f_equal.
    unfold has_class. destruct (objects s4 !! next_id s) as [e|]; [|done].
    simpl in Hsp4. by injection Hsp4 as ->. }
  set (B := ([with_run k (λ r, upd_elem (spinner r) (set_display "block"))]
             ++ match src with
                | TypeScript => []
                | JavaScript =>
                    [λ s, upd_run k (set_originalText (Some (textContent s))) s]
                end)%list).
  set (C := [set_textContent "Generating...";
             upd_run k (λ r, set_stage AwaitingResponse
                               (set_progressInterval (Some tick_period)
                                  (set_progress 0 r)))]).
  assert (onsubmit src k
          = ([begin_submit src] ++ A ++ [with_run k (λ r, appendChild (spinner r))]
             ++ B ++ C)%list) as ->.
  { unfold onsubmit, A, B, C. by destruct src. }
  assert (Forall tame B) as HB.
  { subst B. destruct src; tame_statements.
    intros s'. repeat split; try done. by left. }
  assert (Forall tame C) as HC by (subst C; tame_statements).
  assert (Forall tame (B ++ C)) as HBC by (by apply Forall_app_2).
  pose proof (tame_trace (B ++ C) s5 HBC Hs5) as HtBC.
  assert (count_class "progress-ring" s4 ≤ Nat.max 1 (count_class "progress-ring" s) ∧
          count_class "spinner" s4 ≤ count_class "spinner" s)%nat as [Hr4 Hp4].
  { apply Forall_cons in HtA as [[_ Hc] _].
    pose proof (Hc "progress-ring"). pose proof (Hc "spinner"). lia. }
  assert (count_class "progress-ring" s5 ≤ Nat.max 1 (count_class "progress-ring" s) ∧
          count_class "spinner" s5 ≤ S (count_class "spinner" s))%nat as [Hr5 Hp5].
  { rewrite !Hc5. rewrite bool_decide_eq_false_2 by (by rewrite elem_of_singleton).
    rewrite bool_decide_eq_true_2 by (by rewrite elem_of_singleton). lia. }
  split.
  - apply (Forall_execute_trace _ [begin_submit src]).
    { change (execute [begin_submit src] s) with s2.
      change (trace [begin_submit src] s) with [s2].
      apply Forall_cons_2; [|apply Forall_cons_2; [|apply Forall_nil_2]];
        (split; [exact Hs2 | split; [exact Hring2 | rewrite Hcs; lia]]). }
    change (execute [begin_submit src] s) with s2.
    apply (Forall_execute_trace _ A).
    { eapply Forall_impl; [exact HtA|]. intros s' [Hc' Hcnt]. split; [done|].
      pose proof (Hcnt "progress-ring"). pose proof (Hcnt "spinner"). lia. }
    fold s4.
    apply (Forall_execute_trace _ [with_run k (λ r, appendChild (spinner r))]).
    { unfold execute. simpl. rewrite Happ.
      apply Forall_cons_2; [|apply Forall_cons_2; [|apply Forall_nil_2]]; done. }
    change (execute [with_run k (λ r, appendChild (spinner r))] s4)
      with (with_run k (λ r, appendChild (spinner r)) s4).
    rewrite Happ.
    eapply Forall_impl; [exact HtBC|]. intros s' [Hc' Hcnt]. split; [done|].
    pose proof (Hcnt "progress-ring"). pose proof (Hcnt "spinner"). lia.
  - rewrite !execute_app.
    apply (tame_execute_text [upd_run k _]); [tame_statements|].
    simpl. repeat constructor.
Qed.

(** One turn of the event loop: the store stays consistent, the button
    never has more rings than one (or than it had), a spinner more than it
    had only while the submit handler runs, and after the submit handler
    only text. *)
Lemma step_children (src : source) (s s' : state) (ev : event) :
  consistent s → step src s ev = Some s' →
  consistent s' ∧
  (count_class "progress-ring" s' ≤ Nat.max 1 (count_class "progress-ring" s))%nat ∧
  (count_class "spinner" s' ≤ count_class "spinner" s)%nat ∧
  Forall (λ x, (count_class "progress-ring" x
                ≤ Nat.max 1 (count_class "progress-ring" s))%nat ∧
               (count_class "spinner" x ≤ S (count_class "spinner" s))%nat)
         (during src s ev) ∧
  (ev = Submit → Forall is_text (childNodes (btn s'))) ∧
  (Forall is_text (childNodes (btn s)) → Forall is_text (childNodes (btn s'))).
Proof.
  intros Hs Hstep. unfold step, during in *.
  destruct (handler src s ev) as [stmts|] eqn:Hh; [|done]. injection Hstep as <-.
  assert (ev = Submit ∨ ev ≠ Submit) as [->|Hev]
    by (destruct ev; (by left) || (by right)).
  - injection Hh as <-. destruct (onsubmit_trace src s Hs) as [Htr Htext].
    apply Forall_cons in Htr as [(Hc & Hr & Hp) Htr].
    split; [done|]. split; [done|]. split.
    { rewrite count_class_text by done. lia. }
    split; [|done]. eapply Forall_impl; [exact Htr|]. by intros x (_ & ? & ?).
  - pose proof (tame_handler src s ev stmts Hh Hev) as Htame.
    pose proof (tame_trace stmts s Htame Hs) as Htr.
    apply Forall_cons in Htr as [[Hc Hcnt] Htr].
    split; [done|]. split; [pose proof (Hcnt "progress-ring"); lia|].
    split; [apply Hcnt|]. split; [|split; [done|]].
    + eapply Forall_impl; [exact Htr|]. intros x [_ Hx].
      pose proof (Hx "progress-ring"). pose proof (Hx "spinner"). lia.
    + by apply tame_execute_text.
Qed.

Lemma steps_children (src : source) (evs : list event) (s : state) :
  consistent s →
  Forall (λ x, (count_class "progress-ring" x
                ≤ Nat.max 1 (count_class "progress-ring" s))%nat ∧
               (count_class "spinner" x ≤ S (count_class "spinner" s))%nat)
         (history src s evs) ∧
  ∀ s', steps src s evs = Some s' →
        consistent s' ∧
        (count_class "progress-ring" s'
         ≤ Nat.max 1 (count_class "progress-ring" s))%nat ∧
        (count_class "spinner" s' ≤ count_class "spinner" s)%nat ∧
        (Forall is_text (childNodes (btn s)) → Forall is_text (childNodes (btn s'))).
Proof.
  revert s. induction evs as [|ev evs IH]; intros s Hs; simpl.
  - split; [done|]. intros s' [= <-].
    split; [done|]. split; [lia|]. split; [lia|done].
  - destruct (step src s ev) as [s1|] eqn:Hstep; [|done].
    destruct (step_children src s s1 ev Hs Hstep) as (Hs1 & Hr1 & Hp1 & Hd & _ & Ht1).
    destruct (IH s1 Hs1) as [Hh Hfin]. split.
    + apply Forall_app_2; [done|]. eapply Forall_impl; [exact Hh|].
      intros x [Hx1 Hx2]. simpl in *. lia.
    + intros s' Hs'. destruct (Hfin s' Hs') as (Hc & Hr & Hp & Ht).
      split; [done|]. split; [lia|]. split; [lia|]. auto.
Qed.

Lemma consistent_text_page (b : bool) (cl : gset string) (kids : list node) :
  Forall is_text kids → consistent (State (Button b cl kids) ∅ 0 [] []).
Proof.
  intros Hk. split; simpl.
  - intros id Hin. rewrite Forall_forall in Hk. by destruct (Hk _ Hin).
  - intros id [e He]. by rewrite lookup_empty in He.
Qed.

(** C9. On a page with a consistent store whose button has at most one
    progress ring, however the events follow one another, the button has
    at most one progress-ring child in every state it passes through,
    statement by statement.  Whenever the submit handler starts, a ring
    found among the children of the button becomes the ring of the run and
    nothing but the spinner is created; only when none is found is a ring
    created and appended. *)
Theorem ring_is_reused_not_duplicated (src : source) (s : state) (evs : list event) :
  consistent s → (count_class "progress-ring" s ≤ 1)%nat →
  Forall (λ x, (count_class "progress-ring" x ≤ 1)%nat) (history src s evs) ∧
  ∀ s', steps src s evs = Some s' →
    (count_class "progress-ring" s' ≤ 1)%nat ∧
    ∃ s1 r,
      head (during src s' Submit) = Some s1 ∧ last (runs s1) = Some r ∧
      match querySelector "progress-ring" s' with
      | Some found =>
          ring r = found ∧
          childNodes (btn s1) = childNodes (btn s') ∧
          objects s1 = <[next_id s' := Element {["spinner"]} "" "" Unset]> (objects s')
      | None =>
          count_class "progress-ring" s' = 0%nat ∧
          ring r = S (next_id s') ∧
          objects s1 !! ring r = Some (createProgressRing src) ∧
          childNodes (btn s1) = (childNodes (btn s') ++ [Elem (ring r)])%list
      end.
Proof.
  intros Hs Hring. destruct (steps_children src evs s Hs) as [Hh Hfin]. split.
  - eapply Forall_impl; [exact Hh|]. intros x [Hx _]. simpl in Hx. lia.
  - intros s' Hs'. destruct (Hfin s' Hs') as (Hc & Hr & _). split; [lia|].
    destruct (begin_submit_spec src s' Hc) as (rg & ot & Hruns & _ & _ & _ & _ & Hq).
    exists (begin_submit src s'), (Run (next_id s') rg ot 0 None Starting).
    split; [done|]. split; [by rewrite Hruns, last_snoc|].
    destruct (querySelector "progress-ring" s').
    + destruct Hq as (-> & Hkids & Hobj & _). done.
    + destruct Hq as (-> & Hkids & Hobj & H0 & _). done.
Qed.

Lemma ring_is_reused_not_duplicated_witness :
  let ring0 := Element {["progress-ring"]} "" "" (AtProgress 40) in
  let s := State (Button false ∅ [TextNode "Create Datapack"; Elem 0])
                 {[0%nat := ring0]} 1 [] [] in
  consistent s ∧ (count_class "progress-ring" s ≤ 1)%nat ∧
  Forall (λ x, (count_class "progress-ring" x ≤ 1)%nat)
         (history TypeScript s [Submit; Tick 0; NetworkError 0; Timeout 0; Submit]).
Proof.
  intros ring0 s.
  assert (consistent s) as Hs.
  { split; simpl.
    - intros id Hin. apply elem_of_cons in Hin as [Hin | Hin]; [done|].
      apply list_elem_of_singleton in Hin. injection Hin as ->.
      by rewrite lookup_singleton_eq.
    - intros id [e He]. apply lookup_singleton_Some in He as [<- _]. lia. }
  assert (count_class "progress-ring" s ≤ 1)%nat as Hring by (vm_compute; lia).
  split; [exact Hs|]. split; [exact Hring|].
  exact (proj1 (ring_is_reused_not_duplicated TypeScript s
                  [Submit; Tick 0; NetworkError 0; Timeout 0; Submit] Hs Hring)).
Defined.

(** C10. However the events follow one another, the button never has more
    spinner children at the end of a turn of the event loop than it had
    before; once a submission has begun it has none at the end of every
    later turn, in particular after the return to idle; and while a
    handler runs it has at most one more than at the start, so at most one
    on a page that is loaded without one. *)
Theorem spinners_do_not_accumulate (src : source) (s : state) (evs : list event) :
  consistent s →
  (∀ s', steps src s evs = Some s' →
         (count_class "spinner" s' ≤ count_class "spinner" s)%nat) ∧
  (∀ s', steps src s (Submit :: evs) = Some s' → count_class "spinner" s' = 0%nat) ∧
  Forall (λ x, (count_class "spinner" x ≤ S (count_class "spinner" s))%nat)
         (history src s evs).
Proof.
  intros Hs. destruct (steps_children src evs s Hs) as [Hh Hfin].
  split; [|split].
  - intros s' Hs'. by destruct (Hfin s' Hs') as (_ & _ & ? & _).
  - intros s'. cbn [steps]. destruct (step src s Submit) as [s1|] eqn:Hstep; [|done].
    intros Hs'.
    destruct (step_children src s s1 Submit Hs Hstep) as (Hs1 & _ & _ & _ & Ht & _).
    destruct (steps_children src evs s1 Hs1) as [_ Hfin1].
    destruct (Hfin1 s' Hs') as (_ & _ & _ & Htext).
    apply count_class_text, Htext, Ht. done.
  - eapply Forall_impl; [exact Hh|]. by intros x [_ ?].
Qed.

Lemma spinners_do_not_accumulate_witness :
  let s := State (Button false ∅ [TextNode "Create Datapack"]) ∅ 0 [] [] in
  let evs := [Response 0 200 None; BlobReady 0; Timeout 0;
              Submit; NetworkError 1; Timeout 1; Submit] in
  consistent s ∧
  (λ x, length (runs x)) <$> steps TypeScript s (Submit :: evs) = Some 3%nat ∧
  (∀ s', steps TypeScript s (Submit :: evs) = Some s' →
         count_class "spinner" s' = 0%nat) ∧
  Forall (λ x, (count_class "spinner" x ≤ 1)%nat)
         (history TypeScript s (Submit :: evs)).
Proof.
  intros s evs.
  assert (consistent s) as Hs by (apply consistent_text_page; repeat constructor).
  split; [exact Hs|]. split; [by vm_compute|].
  destruct (spinners_do_not_accumulate TypeScript s evs Hs) as (_ & Hnone & _).
  destruct (spinners_do_not_accumulate TypeScript s (Submit :: evs) Hs) as (_ & _ & Hh).
  split; [exact Hnone|].
  eapply Forall_impl; [exact Hh|]. intros x Hx.
  change (count_class "spinner" s) with 0%nat in Hx. exact Hx.
Defined.

(** *** The variables of the runs *)

Lemma runs_upd_btn (g : button → button) (s : state) : runs (upd_btn g s) = runs s.
Proof. reflexivity. Qed.

Lemma runs_upd_elem (id : nat) (g : element → element) (s : state) :
  runs (upd_elem id g s) = runs s.
Proof. reflexivity. Qed.

Lemma runs_upd_run (k : nat) (g : run → run) (s : state) :
  runs (upd_run k g s) = alter g k (runs s).
Proof. reflexivity. Qed.

Lemma runs_with_run (k : nat) (g : run → state → state) (s : state) :
  (∀ r x, runs (g r x) = runs x) → runs (with_run k g s) = runs s.
Proof. intros Hg. unfold with_run. by destruct (runs s !! k). Qed.

Lemma runs_tick (k : nat) (s : state) :
  runs (execute (tick k) s)
  = alter (λ r, if (100 <=? progress r)%Z then set_progressInterval None r else r) k
      (alter (λ r, set_progress (progress r + progress_increment) r) k (runs s)).
Proof.
  unfold execute, tick. cbn [foldl].
  by rewrite runs_upd_run, runs_with_run, runs_upd_run.
Qed.

Lemma runs_success (k : nat) (cd : option string) (s : state) :
  runs (execute (success k cd) s)
  = alter (set_stage (AwaitingBlob cd)) k
      (alter (set_progressInterval None) k (runs s)).
Proof.
  unfold execute, success. cbn [foldl]. unfold set_textContent, classList_add,
    classList_remove.
  by rewrite runs_upd_run, !runs_upd_btn, runs_with_run, runs_upd_run.
Qed.

Lemma runs_catch (k : nat) (s : state) :
  runs (execute (catch k) s)
  = alter (set_stage (AwaitingReset Failed failure_delay)) k (runs s).
Proof. reflexivity. Qed.

Lemma runs_download (k : nat) (cd : option string) (s : state) :
  runs (execute (download k cd) s)
  = alter (set_stage (AwaitingReset Succeeded success_delay)) k (runs s).
Proof. reflexivity. Qed.

Lemma runs_reset (src : source) (k : nat) (o : outcome) (r : run) (s : state) :
  runs (execute (reset src k o r) s) = alter (set_stage Finished) k (runs s).
Proof. unfold reset. by destruct (originalText_in_scope src o r). Qed.

Lemma tame_execute_objects (stmts : list (state → state)) (s : state) (id : nat) :
  Forall tame stmts →
  classes <$> objects (execute stmts s) !! id = classes <$> objects s !! id.
Proof.
  intros Hst. revert s. induction Hst as [|f stmts Hf _ IH]; intros s; [done|].
  simpl. rewrite IH. by destruct (Hf s) as (_ & -> & _).
Qed.

Lemma is_Some_classes (els els' : gmap nat element) (id : nat) :
  classes <$> els' !! id = classes <$> els !! id →
  is_Some (els !! id) → is_Some (els' !! id).
Proof.
  intros H Hs. apply (fmap_is_Some classes). rewrite H.
  by apply (fmap_is_Some classes).
Qed.

Lemma run_ok_objects (s s' : state) (r : run) :
  (∀ id, is_Some (objects s !! id) → is_Some (objects s' !! id)) →
  run_ok s r → run_ok s' r.
Proof. intros H (Hr & Hrest). split; [by apply H | done]. Qed.

Lemma run_ok_set_stage (s : state) (g : stage) (r : run) :
  run_ok s r → run_ok s (set_stage g r).
Proof. done. Qed.

Lemma run_ok_clear (s : state) (r : run) :
  run_ok s r → run_ok s (set_progressInterval None r).
Proof.
  intros (Hr & Hb & He & _). split; [done|]. split; [done|]. split; [done|]. by left.
Qed.

Lemma even_below_100 (p : Z) :
  Z.even p = true → (p < 100)%Z → (p + 2 ≤ 100)%Z.
Proof. intros He Hlt. apply Z.even_spec in He as [m ->]. lia. Qed.

(** One tick: two more, and the timer is stopped at 100. *)
Lemma run_ok_tick (s : state) (r : run) :
  run_ok s r → is_Some (progressInterval r) →
  run_ok s ((λ r, if (100 <=? progress r)%Z then set_progressInterval None r else r)
              (set_progress (progress r + progress_increment) r)).
Proof.
  intros (Hr & Hb & He & Hi) [p Hp].
  destruct Hi as [Hi | [Hi Hlt]]; [congruence|].
  pose proof (even_below_100 _ He Hlt) as Hle. unfold progress_increment. simpl.
  assert (Z.even (progress r + 2) = true) as He2 by (by rewrite Z.even_add, He).
  destruct (100 <=? progress r + 2)%Z eqn:E; unfold run_ok; simpl.
  - split; [done|]. split; [lia|]. split; [done|]. by left.
  - apply Z.leb_gt in E. split; [done|]. split; [lia|]. split; [done|].
    right. split; [done | lia].
Qed.

Lemma begin_submit_objects (src : source) (s : state) (id : nat) :
  is_Some (objects s !! id) → is_Some (objects (begin_submit src s) !! id).
Proof.
  intros H. unfold begin_submit.
  destruct (querySelector _ _); simpl; rewrite ?lookup_insert;
    repeat case_decide; done.
Qed.

(** The submit handler as a whole: one more run, in flight, with its timer
    started at zero and its ring in the store. *)
Lemma onsubmit_runs (src : source) (s : state) :
  consistent s →
  ∃ rg ot,
    runs (execute (onsubmit src (length (runs s))) s)
    = (runs s ++ [Run (next_id s) rg ot 0 (Some tick_period) AwaitingResponse])%list ∧
    is_Some (objects (execute (onsubmit src (length (runs s))) s) !! rg) ∧
    ∀ id, is_Some (objects s !! id) →
          is_Some (objects (execute (onsubmit src (length (runs s))) s) !! id).
Proof.
  intros Hs.
  destruct (begin_submit_spec src s Hs) as (rg & ot & Hruns & _ & _ & Hrg & _).
  set (k := length (runs s)).
  set (A := ([set_disabled true; classList_add "loading";
              with_run k (λ r, appendChild (spinner r))])).
  set (B := ([with_run k (λ r, upd_elem (spinner r) (set_display "block"))]
             ++ match src with
                | TypeScript => []
                | JavaScript =>
                    [λ s, upd_run k (set_originalText (Some (textContent s))) s]
                end)%list).
  set (C := [set_textContent "Generating...";
             upd_run k (λ r, set_stage AwaitingResponse
                               (set_progressInterval (Some tick_period)
                                  (set_progress 0 r)))]).
  assert (onsubmit src k = ([begin_submit src] ++ A ++ B ++ C)%list) as ->
    by (unfold onsubmit, A, B, C; by destruct src).
  rewrite !execute_app. change (execute [begin_submit src] s) with (begin_submit src s).
  set (s2 := begin_submit src s) in *.
  set (s5 := execute A s2).
  assert (runs s5 = runs s2 ∧ objects s5 = objects s2) as [Hr5 Ho5].
  { unfold s5, A, execute. cbn [foldl]. unfold with_run.
    by destruct (runs (classList_add "loading" (set_disabled true s2)) !! k). }
  assert (Forall tame B) as HB.
  { subst B. destruct src; tame_statements.
    intros s'. repeat split; try done. by left. }
  assert (Forall tame C) as HC by (subst C; tame_statements).
  assert (∀ id, is_Some (objects s2 !! id) →
                is_Some (objects (execute C (execute B s5)) !! id)) as Hobj.
  { intros id Hid. eapply is_Some_classes; [|exact Hid].
    rewrite (tame_execute_objects C _ id HC), (tame_execute_objects B _ id HB).
    by rewrite Ho5. }
  assert (∃ ot', runs (execute B s5)
                 = (runs s ++ [Run (next_id s) rg ot' 0 None Starting])%list)
    as [ot' HrB].
  { unfold B, execute. destruct src; cbn [foldl app].
    - exists ot. rewrite runs_with_run by done. by rewrite Hr5, Hruns.
    - eexists. rewrite runs_upd_run, runs_with_run by done.
      rewrite Hr5, Hruns. subst k.
      rewrite alter_app_r_alt by done. rewrite Nat.sub_diag. reflexivity. }
  exists rg, ot'. split; [|split; [by apply Hobj | ]].
  - unfold C, execute. cbn [foldl]. unfold set_textContent.
    rewrite runs_upd_run, runs_upd_btn. fold (execute B s5). rewrite HrB. subst k.
    rewrite alter_app_r_alt by done. rewrite Nat.sub_diag. reflexivity.
  - intros id Hid. by apply Hobj, begin_submit_objects.
Qed.

Lemma alter_alter_list {A} (f g : A → A) (k : nat) (l : list A) :
  alter g k (alter f k l) = alter (λ x, g (f x)) k l.
Proof.
  revert k. induction l as [|x l IH]; intros [|k]; simpl; try done.
  f_equal. apply IH.
Qed.

(** The invariant of the runs holds from one turn of the event loop to the
    next. *)
Lemma step_run_ok (src : source) (s s' : state) (ev : event) :
  consistent s → Forall (run_ok s) (runs s) → step src s ev = Some s' →
  Forall (run_ok s') (runs s').
Proof.
  intros Hs Hok Hstep. unfold step in Hstep.
  destruct (handler src s ev) as [stmts|] eqn:Hh; [|done]. injection Hstep as <-.
  assert (ev = Submit ∨ ev ≠ Submit) as [->|Hev]
    by (destruct ev; (by left) || (by right)).
  - injection Hh as <-.
    destruct (onsubmit_runs src s Hs) as (rg & ot & -> & Hrg & Hobj).
    apply Forall_app_2.
    + eapply Forall_impl; [exact Hok|]. intros r. by apply run_ok_objects.
    + apply Forall_cons_2; [|apply Forall_nil_2].
      split; [exact Hrg|]. simpl. split; [lia|]. split; [done|].
      right. split; [done | lia].
  - pose proof (tame_handler src s ev stmts Hh Hev) as Htame.
    assert (Forall (run_ok s) (runs (execute stmts s))) as Hok'.
    { destruct ev as [|k|k status cd|k|k|k|k]; [done|..]; simpl in Hh.
      - destruct (runs s !! k) as [r|] eqn:Hk; [|done].
        destruct (progressInterval r) as [p|] eqn:Hp; [|done]. injection Hh as <-.
        rewrite runs_tick, alter_alter_list. apply Forall_alter; [done|].
        intros x Hx Hokx. rewrite Hk in Hx. injection Hx as <-.
        apply run_ok_tick; [done | by rewrite Hp].
      - destruct (stage_of <$> runs s !! k) as [[]|]; try done. injection Hh as <-.
        destruct (ok status).
        + rewrite runs_success, alter_alter_list. apply Forall_alter; [done|].
          intros x _ Hokx. by apply run_ok_set_stage, run_ok_clear.
        + rewrite runs_catch. apply Forall_alter; [done|]. intros x _ Hokx.
          by apply run_ok_set_stage.
      - destruct (stage_of <$> runs s !! k) as [[]|]; try done. injection Hh as <-.
        rewrite runs_catch. apply Forall_alter; [done|]. intros x _ Hokx.
        by apply run_ok_set_stage.
      - destruct (stage_of <$> runs s !! k) as [[]|]; try done. injection Hh as <-.
        rewrite runs_download. apply Forall_alter; [done|]. intros x _ Hokx.
        by apply run_ok_set_stage.
      - destruct (stage_of <$> runs s !! k) as [[]|]; try done. injection Hh as <-.
        rewrite runs_catch. apply Forall_alter; [done|]. intros x _ Hokx.
        by apply run_ok_set_stage.
      - destruct (runs s !! k) as [r|]; [|done].
        destruct (stage_of r); try done. injection Hh as <-.
        rewrite runs_reset. apply Forall_alter; [done|]. intros x _ Hokx.
        by apply run_ok_set_stage. }
    eapply Forall_impl; [exact Hok'|]. intros r. apply run_ok_objects.
    intros id. apply is_Some_classes. by apply tame_execute_objects.
Qed.

Lemma steps_run_ok (src : source) (evs : list event) (s s' : state) :
  consistent s → Forall (run_ok s) (runs s) → steps src s evs = Some s' →
  consistent s' ∧ Forall (run_ok s') (runs s').
Proof.
  revert s. induction evs as [|ev evs IH]; intros s Hs Hok; cbn [steps].
  - by intros [= <-].
  - destruct (step src s ev) as [s1|] eqn:Hstep; [|done].
    apply IH.
    + by destruct (step_children src s s1 ev Hs Hstep) as (? & _).
    + by apply (step_run_ok src s s1 ev).
Qed.

Lemma objects_tick (k : nat) (r : run) (s : state) :
  runs s !! k = Some r →
  objects (execute (tick k) s)
  = alter (set_strokeDashoffset (AtProgress (progress r + progress_increment)))
          (ring r) (objects s).
Proof.
  intros Hk. unfold execute, tick. cbn [foldl]. unfold with_run.
  rewrite runs_upd_run, list_lookup_alter_eq, Hk. reflexivity.
Qed.

Lemma objects_success (k : nat) (cd : option string) (r : run) (s : state) :
  runs s !! k = Some r →
  objects (execute (success k cd) s)
  = alter (set_strokeDashoffset Zero) (ring r) (objects s).
Proof.
  intros Hk. unfold execute, success. cbn [foldl]. unfold with_run.
  rewrite runs_upd_run, list_lookup_alter_eq, Hk. reflexivity.
Qed.

Lemma loaded_run_ok (src : source) (s0 s : state) (evs : list event) :
  loaded s0 → steps src s0 evs = Some s →
  consistent s ∧ Forall (run_ok s) (runs s).
Proof.
  intros (Hc & Hruns & _) Hsteps. apply (steps_run_ok src evs s0 s); [done| |done].
  rewrite Hruns. apply Forall_nil_2.
Qed.

(** C3. In every state a loaded page can reach, the progress of every
    submission lies between 0 and 100 and its timer, while registered, has
    the fixed period; a tick of a registered timer adds exactly the fixed
    increment to the progress and to the ring; and when the response of a
    submission in flight arrives with a success status, whatever the number
    of ticks before it, the submission is in the succeeded state with the
    ring at exactly 100 and the timer cancelled. *)
Theorem ring_is_full_on_success (src : source) (s0 s : state) (evs : list event) :
  loaded s0 → steps src s0 evs = Some s →
  (∀ k r, runs s !! k = Some r →
     (0 ≤ progress r ≤ 100)%Z ∧
     (progressInterval r = None ∨ progressInterval r = Some tick_period)) ∧
  (∀ k r, runs s !! k = Some r → is_Some (progressInterval r) →
     ∃ s', step src s (Tick k) = Some s' ∧
           progress_of k s' = Some (progress r + progress_increment)%Z ∧
           ring_percent k s' = Some (progress r + progress_increment)%Z ∧
           (progress r + progress_increment ≤ 100)%Z) ∧
  (∀ k status cd,
     ok status = true → stage_of <$> runs s !! k = Some AwaitingResponse →
     ∃ s', step src s (Response k status cd) = Some s' ∧
           phase k s = Some InFlight ∧ phase k s' = Some Success ∧
           ring_percent k s' = Some 100%Z ∧ timer k s' = Some None).
Proof.
  intros Hload Hsteps.
  destruct (loaded_run_ok src s0 s evs Hload Hsteps) as [Hc Hok].
  rewrite Forall_lookup in Hok. split; [|split].
  - intros k r Hk. destruct (Hok k r Hk) as (_ & Hb & _ & Hi).
    split; [done|]. destruct Hi as [Hi | [Hi _]]; auto.
  - intros k r Hk [p Hp]. destruct (Hok k r Hk) as ([e He] & Hb & Hev & Hi).
    destruct Hi as [Hi | [Hi Hlt]]; [congruence|].
    exists (execute (tick k) s). split; [unfold step; simpl; by rewrite Hk, Hp|].
    assert (∃ r', runs (execute (tick k) s) !! k = Some r' ∧ ring r' = ring r ∧
                  progress r' = (progress r + progress_increment)%Z)
      as (r' & Hk' & Hring & Hprog).
    { rewrite runs_tick, alter_alter_list, list_lookup_alter_eq, Hk.
      eexists. split; [reflexivity|]. simpl. by destruct (100 <=? _)%Z. }
    assert (objects (execute (tick k) s) !! ring r
            = Some (set_strokeDashoffset
                      (AtProgress (progress r + progress_increment)) e)) as Ho'
      by (by rewrite (objects_tick k r s Hk), lookup_alter_eq, He).
    unfold progress_of, ring_percent. rewrite Hk'. cbn -[execute].
    rewrite Hprog, Hring, Ho'.
    split; [done|]. split; [done | by apply even_below_100].
  - intros k status cd Hok' Hstage.
    destruct (runs s !! k) as [r|] eqn:Hk; [|done].
    simpl in Hstage. injection Hstage as Hstage.
    destruct (Hok k r Hk) as ([e He] & _).
    exists (execute (success k cd) s).
    split; [unfold step; simpl; rewrite Hk; simpl; by rewrite Hstage, Hok'|].
    assert (runs (execute (success k cd) s) !! k
            = Some (set_stage (AwaitingBlob cd) (set_progressInterval None r)))
      as Hk'
      by (by rewrite runs_success, alter_alter_list, list_lookup_alter_eq, Hk).
    assert (objects (execute (success k cd) s) !! ring r
            = Some (set_strokeDashoffset Zero e)) as Ho'
      by (by rewrite (objects_success k cd r s Hk), lookup_alter_eq, He).
    unfold phase, ring_percent, timer. rewrite Hk', Hk. cbn -[execute].
    rewrite Hstage, Ho'. done.
Qed.

Lemma loaded_text_page (label : string) :
  loaded (State (Button false ∅ [TextNode label]) ∅ 0 [] []).
Proof.
  split; [|done]. apply consistent_text_page. repeat constructor.
Qed.

Lemma ring_is_full_on_success_witness :
  let s0 := State (Button false ∅ [TextNode "Create Datapack"]) ∅ 0 [] [] in
  loaded s0 ∧
  (∃ s s', steps TypeScript s0 [Submit] = Some s ∧
           step TypeScript s (Response 0 200 None) = Some s' ∧
           progress_of 0 s = Some 0%Z ∧ ring_percent 0 s' = Some 100%Z) ∧
  (∃ s s', steps TypeScript s0 [Submit; Tick 0; Tick 0; Tick 0] = Some s ∧
           step TypeScript s (Response 0 200 None) = Some s' ∧
           progress_of 0 s = Some 6%Z ∧ ring_percent 0 s' = Some 100%Z).
Proof.
  intros s0. pose proof (loaded_text_page "Create Datapack") as Hload.
  split; [exact Hload|]. split.
  - assert (steps TypeScript s0 [Submit] ≫= (λ x, stage_of <$> runs x !! 0%nat)
            = Some AwaitingResponse) as Hstage by (by vm_compute).
    assert (steps TypeScript s0 [Submit] ≫= progress_of 0 = Some 0%Z) as Hprog
      by (by vm_compute).
    destruct (steps TypeScript s0 [Submit]) as [s|] eqn:Hs; [|done].
    destruct (ring_is_full_on_success TypeScript s0 s [Submit] Hload Hs)
      as (_ & _ & Hsucc).
    destruct (Hsucc 0%nat 200%Z None eq_refl Hstage) as (s' & Hs' & _ & _ & H100 & _).
    exists s, s'. done.
  - assert (steps TypeScript s0 [Submit; Tick 0; Tick 0; Tick 0]
              ≫= (λ x, stage_of <$> runs x !! 0%nat)
            = Some AwaitingResponse) as Hstage by (by vm_compute).
    assert (steps TypeScript s0 [Submit; Tick 0; Tick 0; Tick 0] ≫= progress_of 0
            = Some 6%Z) as Hprog by (by vm_compute).
    destruct (steps TypeScript s0 [Submit; Tick 0; Tick 0; Tick 0]) as [s|] eqn:Hs;
      [|done].
    destruct (ring_is_full_on_success TypeScript s0 s _ Hload Hs) as (_ & _ & Hsucc).
    destruct (Hsucc 0%nat 200%Z None eq_refl Hstage) as (s' & Hs' & _ & _ & H100 & _).
    exists s, s'. done.
Defined.

(** The [catch] block leaves the interval timer as it is: only the success
    path calls [clearInterval]. *)
Lemma catch_keeps_timer (k : nat) (s : state) :
  timer k (execute (catch k) s) = timer k s ∧
  progress_of k (execute (catch k) s) = progress_of k s.
Proof.
  unfold timer, progress_of. rewrite runs_catch, list_lookup_alter_eq.
  by destruct (runs s !! k).
Qed.

(** C1 (what the code does). A submission with one tick before the request
    fails, by a network error or by status 500, in either source file: the
    submission is in the failed state with the ring at 2 and its timer
    still registered, and the next tick moves the ring to 4 while the
    failed state is shown. *)
Theorem failed_request_leaves_the_timer_running (src : source) :
  let s0 := State (Button false ∅ [TextNode "Create Datapack"]) ∅ 0 [] [] in
  let rejected := steps src s0 [Submit; Tick 0; NetworkError 0] in
  let refused := steps src s0 [Submit; Tick 0; Response 0 500 None] in
  rejected ≫= phase 0 = Some Failure ∧
  rejected ≫= timer 0 = Some (Some tick_period) ∧
  rejected ≫= ring_percent 0 = Some 2%Z ∧
  (rejected ≫= λ s, step src s (Tick 0)) ≫= phase 0 = Some Failure ∧
  (rejected ≫= λ s, step src s (Tick 0)) ≫= ring_percent 0 = Some 4%Z ∧
  refused ≫= phase 0 = Some Failure ∧
  refused ≫= timer 0 = Some (Some tick_period) ∧
  (refused ≫= λ s, step src s (Tick 0)) ≫= ring_percent 0 = Some 4%Z.
Proof. destruct src; vm_compute; done. Qed.

(** C2 (what the code does). A submission answered with status 500,
    followed by the reset timeout.  In both source files the submission
    fails, nothing is saved and the button is enabled again.  In
    [script.js] the reset callback stops at the unresolvable
    [originalText]: the label stays [Error! Try Again] and the spinner
    keeps [display: block].  In [script.ts] the label is set to the text
    read after the ring was appended, the original label followed by the
    white space inside the ring, and the spinner is hidden. *)
Theorem failure_reset_restores_the_label_only_in_script_ts :
  let s0 := State (Button false ∅ [TextNode "Create Datapack"]) ∅ 0 [] [] in
  let evs := [Submit; Response 0 500 None] in
  let js := steps JavaScript s0 (evs ++ [Timeout 0]) in
  let ts := steps TypeScript s0 (evs ++ [Timeout 0]) in
  steps JavaScript s0 evs ≫= phase 0 = Some Failure ∧
  steps TypeScript s0 evs ≫= phase 0 = Some Failure ∧
  js ≫= phase 0 = Some Idle ∧ ts ≫= phase 0 = Some Idle ∧
  saved <$> js = Some [] ∧ saved <$> ts = Some [] ∧
  (λ s, disabled (btn s)) <$> js = Some false ∧
  (λ s, disabled (btn s)) <$> ts = Some false ∧
  (λ s, childNodes (btn s)) <$> js = Some [TextNode "Error! Try Again"] ∧
  js ≫= spinner_display 0 = Some "block" ∧
  (λ s, childNodes (btn s)) <$> ts
  = Some [TextNode ("Create Datapack" +:+ ring_text TypeScript)] ∧
  ts ≫= spinner_display 0 = Some "none".
Proof. vm_compute. done. Qed.

End submission_facts.

(** * Further properties *)

(** ** Selection and search *)

Section catalog_more.

Import Catalog.

Lemma remove_add_class (c : string) (cl : gset string) :
  c ∈ cl → cl ∖ {[c]} ∪ {[c]} = cl.
Proof.
  intros Hin. apply set_eq. intros x.
  rewrite elem_of_union, elem_of_difference, elem_of_singleton.
  destruct (decide (x = c)) as [->|Hne]; tauto.
Qed.

Lemma add_remove_class (c : string) (cl : gset string) :
  c ∉ cl → (cl ∪ {[c]}) ∖ {[c]} = cl.
Proof.
  intros Hin. apply set_eq. intros x.
  rewrite elem_of_difference, elem_of_union, elem_of_singleton.
  destruct (decide (x = c)) as [->|Hne]; tauto.
Qed.

Lemma toggle_toggle (it : grid_item) :
  (λ it, set_checked (negb (checked it)) (classList_toggle "selected" it))
    (set_checked (negb (checked it)) (classList_toggle "selected" it)) = it.
Proof.
  destruct it as [n cl ch d]. unfold classList_toggle, has_class. simpl.
  destruct (bool_decide ("selected" ∈ cl)) eqn:E; simpl.
  - apply bool_decide_eq_true in E.
    rewrite bool_decide_eq_false_2
      by (rewrite elem_of_difference, elem_of_singleton; tauto).
    unfold set_checked, classList_add. simpl.
    by rewrite remove_add_class, negb_involutive.
  - apply bool_decide_eq_false in E.
    rewrite bool_decide_eq_true_2
      by (rewrite elem_of_union, elem_of_singleton; tauto).
    unfold set_checked, classList_remove. simpl.
    by rewrite add_remove_class, negb_involutive.
Qed.

Lemma updateSelectedList_ext (p q : page) :
  items p = items q → updateSelectedList p = updateSelectedList q.
Proof. intros H. rewrite !updateSelectedList_eq. by rewrite H. Qed.

(** Toggling the same entry twice gives back the catalog as it was, and the
    page shows what a fresh render of it shows. *)
Theorem toggle_twice_is_a_rerender (i : nat) (p : page) :
  toggleSelection i (toggleSelection i p) = updateSelectedList p.
Proof.
  unfold toggleSelection at 1. apply updateSelectedList_ext. simpl.
  unfold toggleSelection. rewrite updateSelectedList_items. simpl.
  rewrite alter_alter_list. apply list_alter_id. apply toggle_toggle.
Qed.

Lemma filter_fmap_all {A} (P : A → Prop) `{!∀ x, Decision (P x)} (f : A → A)
    (l : list A) :
  (∀ x, P (f x)) → filter P (f <$> l) = f <$> l.
Proof.
  intros Hall. apply filter_all. intros y Hy.
  apply list_elem_of_fmap in Hy as (x & -> & _). apply Hall.
Qed.

Lemma filter_fmap_none {A} (P : A → Prop) `{!∀ x, Decision (P x)} (f : A → A)
    (l : list A) :
  (∀ x, ¬ P (f x)) → filter P (f <$> l) = [].
Proof.
  intros Hnone. apply filter_none. intros y Hy.
  apply list_elem_of_fmap in Hy as (x & -> & _). apply Hnone.
Qed.

(** [selectAll], on any page, whether class and checkbox agreed or not:
    every entry ends checked and classed, keeps its name and visibility,
    and the page lists every name, in catalog order, with the size of the
    catalog as count. *)
Theorem selectAll_selects_every_entry (p : page) :
  Forall (λ it, checked it = true ∧ in_sync it) (items (selectAll p)) ∧
  data_name <$> items (selectAll p) = data_name <$> items p ∧
  display <$> items (selectAll p) = display <$> items p ∧
  selected_list (selectAll p) = name_or_empty <$> items p ∧
  selected_items_count (selectAll p) = pretty (length (items p)) ∧
  selected_count (selectAll p) = "Selected: " +:+ pretty (length (items p)).
Proof.
  unfold selectAll. rewrite updateSelectedList_eq. cbn [items selected_list
    selected_items_count selected_count].
  set (f := λ it, set_checked true (classList_add "selected" it)).
  rewrite (filter_fmap_all _ f).
  2:{ intros it. apply bool_decide_eq_true.
      simpl. rewrite elem_of_union, elem_of_singleton. tauto. }
  rewrite <- !list_fmap_compose, !length_fmap.
  split; [|done].
  apply Forall_fmap, Forall_forall. intros it _. split; [done|].
  apply selectAll_in_sync.
Qed.

(** [deselectAll], on any page: no entry is checked or classed any more,
    names and visibility are kept, and the page shows an empty list and the
    count 0. *)
Theorem deselectAll_clears_every_entry (p : page) :
  Forall (λ it, checked it = false ∧ in_sync it) (items (deselectAll p)) ∧
  data_name <$> items (deselectAll p) = data_name <$> items p ∧
  display <$> items (deselectAll p) = display <$> items p ∧
  selected_list (deselectAll p) = [] ∧
  selected_items_count (deselectAll p) = "0" ∧
  selected_count (deselectAll p) = "Selected: 0".
Proof.
  unfold deselectAll. rewrite updateSelectedList_eq. cbn [items selected_list
    selected_items_count selected_count].
  set (f := λ it, set_checked false (classList_remove "selected" it)).
  rewrite (filter_fmap_none _ f).
  2:{ intros it. rewrite not_true_iff_false. apply bool_decide_eq_false.
      simpl. rewrite elem_of_difference, elem_of_singleton. tauto. }
  rewrite <- !list_fmap_compose.
  split; [|done].
  apply Forall_fmap, Forall_forall. intros it _. split; [done|].
  apply deselectAll_in_sync.
Qed.

Lemma snapshot_split (l1 l2 : list grid_item) (it : grid_item) :
  length (filter (λ it, checked it = true) (l1 ++ it :: l2)%list)
  = (length (filter (λ it, checked it = true) l1)
     + (if checked it then 1 else 0)
     + length (filter (λ it, checked it = true) l2))%nat.
Proof.
  rewrite filter_app, length_app, filter_cons.
  destruct (checked it); case_decide; simpl; try done; lia.
Qed.

(** [toggleSelection] on an entry of the catalog, the one at position
    [i]: that entry has its checkbox and its [selected] class flipped and
    keeps its name and visibility, every other entry is left as it was, the
    catalog keeps its length, and the number of checked entries moves by
    exactly one. *)
Theorem toggle_changes_one_entry (i : nat) (p : page) (it : grid_item) :
  items p !! i = Some it →
  (∃ it', items (toggleSelection i p) !! i = Some it' ∧
          checked it' = negb (checked it) ∧
          has_class "selected" it' = negb (has_class "selected" it) ∧
          data_name it' = data_name it ∧ display it' = display it) ∧
  length (snapshot (toggleSelection i p))
  = (if checked it then length (snapshot p) - 1 else S (length (snapshot p)))%nat ∧
  (∀ j, j ≠ i → items (toggleSelection i p) !! j = items p !! j) ∧
  length (items (toggleSelection i p)) = length (items p).
Proof.
  intros Hi. unfold toggleSelection. rewrite updateSelectedList_items.
  cbn [items]. split; [|split; [|split]].
  - eexists. rewrite list_lookup_alter_eq, Hi. split; [reflexivity|].
    split; [done|].
    split; [|unfold classList_toggle; by destruct (has_class "selected" it)].
    unfold classList_toggle, has_class. simpl.
    destruct (bool_decide ("selected" ∈ classList it)) eqn:E; simpl.
    + apply bool_decide_eq_false. rewrite elem_of_difference, elem_of_singleton. tauto.
    + apply bool_decide_eq_true. rewrite elem_of_union, elem_of_singleton. tauto.
  - unfold snapshot. rewrite updateSelectedList_items. cbn [items].
    rewrite !length_fmap.
    pose proof (take_drop_middle _ _ _ Hi) as Hsplit.
    pose proof (lookup_lt_Some _ _ _ Hi) as Hlt.
    rewrite <- Hsplit.
    rewrite alter_app_r_alt by (rewrite length_take; lia).
    rewrite length_take, Nat.min_l, Nat.sub_diag by lia. simpl.
    rewrite !snapshot_split. simpl. destruct (checked it); simpl; lia.
  - intros j Hj. by rewrite list_lookup_alter_ne.
  - apply length_alter.
Qed.

Lemma toggle_changes_one_entry_witness :
  let p := Page [GridItem (Some "Stone") ∅ false "block";
                 GridItem (Some "Wool") {["selected"]} true "none"]
                ["Wool"] "1" "Selected: 1" in
  length (snapshot (toggleSelection 0 p)) = 2%nat ∧
  items (toggleSelection 0 p) !! 1%nat
  = Some (GridItem (Some "Wool") {["selected"]} true "none").
Proof.
  intros p.
  destruct (toggle_changes_one_entry 0 p (GridItem (Some "Stone") ∅ false "block")
              eq_refl) as (_ & Hlen & Hother & _).
  split.
  - rewrite Hlen. reflexivity.
  - rewrite (Hother 1%nat) by discriminate. reflexivity.
Defined.

Lemma filter_page_load (l : list grid_item) :
  name_or_empty
    <$> filter (λ it, has_class "selected" it = true)
          ((λ it, if checked it then classList_add "selected" it else it) <$> l)
  = name_or_empty
      <$> filter (λ it, checked it = true ∨ has_class "selected" it = true) l.
Proof.
  induction l as [|it l IH]; [done|].
  rewrite fmap_cons, !filter_cons.
  assert (has_class "selected" (if checked it then classList_add "selected" it else it)
          = checked it || has_class "selected" it) as Hc.
  { destruct (checked it); [|done]. simpl. apply bool_decide_eq_true.
    simpl. rewrite elem_of_union, elem_of_singleton. tauto. }
  assert (name_or_empty (if checked it then classList_add "selected" it else it)
          = name_or_empty it) as Hn by (by destruct (checked it)).
  destruct (decide (has_class "selected"
                      (if checked it then classList_add "selected" it else it) = true))
    as [H1|H1];
    destruct (decide (checked it = true ∨ has_class "selected" it = true)) as [H2|H2];
    rewrite ?fmap_cons, ?Hn, ?IH; try done; exfalso; rewrite Hc in H1;
    destruct (checked it), (has_class "selected" it); simpl in *;
    intuition congruence.
Qed.

(** Page load: the page lists, in catalog order, the entries that are
    checked or carry the [selected] class in the markup, and leaves every
    checkbox as it is.  When no entry carries the class without being
    checked, class and checkbox agree afterwards and the page shows the
    selection. *)
Theorem page_load_renders_the_markup (p : page) :
  selected_list (onDOMContentLoaded p)
  = name_or_empty
      <$> filter (λ it, checked it = true ∨ has_class "selected" it = true) (items p) ∧
  checked <$> items (onDOMContentLoaded p) = checked <$> items p ∧
  (Forall (λ it, has_class "selected" it = true → checked it = true) (items p) →
   Forall in_sync (items (onDOMContentLoaded p)) ∧ rendered (onDOMContentLoaded p)).
Proof.
  split; [|split].
  - unfold onDOMContentLoaded. rewrite updateSelectedList_eq. cbn [selected_list items].
    apply filter_page_load.
  - unfold onDOMContentLoaded. rewrite updateSelectedList_items. cbn [items].
    rewrite <- list_fmap_compose. apply list_fmap_ext. intros i it _.
    unfold compose. destruct (checked it) eqn:E; [simpl; exact E | exact E].
  - intros Hmarkup. pose proof (onDOMContentLoaded_in_sync p Hmarkup) as Hs.
    split; [exact Hs|]. unfold onDOMContentLoaded in *.
    apply updateSelectedList_rendered. by rewrite updateSelectedList_items in Hs.
Qed.

Lemma page_load_renders_the_markup_witness :
  let p := Page [GridItem (Some "Stone") ∅ true "";
                 GridItem (Some "Wool") ∅ false "";
                 GridItem None ∅ true ""] [] "" "" in
  rendered (onDOMContentLoaded p) ∧
  selected_list (onDOMContentLoaded p) = ["Stone"; ""].
Proof.
  intros p. destruct (page_load_renders_the_markup p) as (Hlist & _ & Hsync).
  split.
  - apply Hsync. repeat constructor; done.
  - rewrite Hlist. reflexivity.
Defined.

Lemma includes_trans (s q r : string) :
  includes s q = true → includes q r = true → includes s r = true.
Proof.
  rewrite !includes_spec. intros (a & b & ->) (c & d & ->).
  exists (a +:+ c), (d +:+ b). by rewrite !app_assoc_s.
Qed.

Lemma onKeyup_display (value : string) (p : page) (i : nat) :
  display <$> items (onKeyup value p) !! i
  = (λ it, if includes (toLowerCase (name_or_empty it)) (toLowerCase value)
           then "block" else "none") <$> items p !! i.
Proof.
  unfold onKeyup. cbn [items]. rewrite list_lookup_fmap.
  destruct (items p !! i) as [it|]; [|done]. simpl.
  by rewrite show_if_match_display.
Qed.

(** For queries and names made of ASCII characters: a query that contains
    another one, the case of the letters A to Z apart, shows no entry the
    other hides, so that typing further characters only narrows the
    catalog.  Nothing is said of text outside ASCII. *)
Theorem narrowing_the_query_only_hides (shorter longer : string) (p : page) (i : nat) :
  ascii_text shorter = true → ascii_text longer = true →
  Forall (λ it, ascii_text (name_or_empty it) = true) (items p) →
  ci_substring longer shorter →
  display <$> items (onKeyup longer p) !! i = Some "block" →
  display <$> items (onKeyup shorter p) !! i = Some "block".
Proof.
  intros _ _ _ Hsub. apply includes_lower_ci in Hsub.
  rewrite !onKeyup_display. destruct (items p !! i) as [it|]; [|done]. simpl.
  destruct (includes _ (toLowerCase longer)) eqn:E; [|done]. intros _.
  by rewrite (includes_trans _ _ _ E Hsub).
Qed.

Lemma narrowing_the_query_only_hides_witness :
  let p := Page [GridItem (Some "Oak Planks") ∅ false "none"] [] "" "" in
  display <$> items (onKeyup "pla" p) !! 0%nat = Some "block".
Proof.
  intros p. apply (narrowing_the_query_only_hides "pla" "k PLANk" p 0).
  - reflexivity.
  - reflexivity.
  - apply Forall_cons_2; [reflexivity | apply Forall_nil_2].
  - exists "k ", "PLA", "Nk". split; reflexivity.
  - reflexivity.
Defined.

Lemma show_if_match_twice (q1 q2 : string) (it : grid_item) :
  show_if_match q2 (show_if_match q1 it) = show_if_match q2 it.
Proof.
  unfold show_if_match.
  destruct (includes _ q1); simpl; by destruct (includes _ q2).
Qed.

(** Only the last query counts: what an earlier keystroke showed or hid
    leaves no trace.  In particular clearing the search box shows every
    entry again. *)
Theorem last_query_wins (first last : string) (p : page) :
  onKeyup last (onKeyup first p) = onKeyup last p ∧
  Forall (λ it, display it = "block") (items (onKeyup "" (onKeyup first p))).
Proof.
  assert (∀ v, onKeyup v (onKeyup first p) = onKeyup v p) as H.
  { intros v. unfold onKeyup. cbn [items selected_list selected_items_count
      selected_count]. f_equal. rewrite <- list_fmap_compose.
    apply list_fmap_ext. intros i it _. apply show_if_match_twice. }
  split; [apply H|]. rewrite H.
  unfold onKeyup. cbn [items]. apply Forall_fmap, Forall_forall. intros it _. simpl.
  change "" with (toLowerCase "") at 1.
  by rewrite show_if_match_display, includes_empty.
Qed.

Lemma show_if_match_commutes (q : string) (g : grid_item → grid_item) :
  (∀ it, data_name (g it) = data_name it ∧ display (g it) = display it) →
  (∀ it d, g (set_display d it) = set_display d (g it)) →
  ∀ it, show_if_match q (g it) = g (show_if_match q it).
Proof.
  intros Hframe Hcomm it. unfold show_if_match.
  destruct (Hframe it) as [-> _]. by destruct (includes _ q); rewrite Hcomm.
Qed.

Lemma onKeyup_update (value : string) (q : page) :
  onKeyup value (updateSelectedList q)
  = updateSelectedList
      (Page (show_if_match (toLowerCase value) <$> items q)
            (selected_list q) (selected_items_count q) (selected_count q)).
Proof.
  rewrite !updateSelectedList_eq. unfold onKeyup.
  cbn [items selected_list selected_items_count selected_count].
  pose proof (filter_show_if_match (toLowerCase value) (has_class "selected")
                name_or_empty (items q)
                (has_class_show_if_match "selected" (toLowerCase value))
                (name_show_if_match (toLowerCase value))) as Hsel.
  pose proof (f_equal length Hsel) as Hlen. rewrite !length_fmap in Hlen.
  by rewrite Hsel, Hlen.
Qed.

(** Searching and selecting do not interfere: filtering after a selection
    operation gives the same page as the operation after filtering. *)
Theorem search_commutes_with_selection (value : string) (p : page) (o : operation) :
  onKeyup value (run p o) = run (onKeyup value p) o.
Proof.
  destruct o as [i| |]; cbn [run]; unfold toggleSelection, selectAll, deselectAll;
    rewrite onKeyup_update; apply updateSelectedList_ext;
    unfold onKeyup; cbn [items].
  - apply list_fmap_alter, Forall_forall. intros it _.
    apply (show_if_match_commutes _
             (λ it, set_checked (negb (checked it)) (classList_toggle "selected" it))).
    + intros x. unfold classList_toggle. by destruct (has_class "selected" x).
    + intros x d. unfold classList_toggle, has_class. simpl.
      by destruct (bool_decide _).
  - rewrite <- !list_fmap_compose. apply list_fmap_ext. intros i it _.
    by apply (show_if_match_commutes _
                (λ it, set_checked true (classList_add "selected" it))).
  - rewrite <- !list_fmap_compose. apply list_fmap_ext. intros i it _.
    by apply (show_if_match_commutes _
                (λ it, set_checked false (classList_remove "selected" it))).
Qed.

End catalog_more.

(** ** The help dialog *)

Section help_facts.

Import Help.

Lemma union_idem_class (cl : gset string) (c : string) :
  cl ∪ {[c]} ∪ {[c]} = cl ∪ {[c]}.
Proof.
  apply set_eq. intros x. rewrite !elem_of_union. tauto.
Qed.

Lemma hide_after_show (d : dialog) : hideHelp (showHelp d) = hideHelp d.
Proof.
  destruct d as [o h]. unfold hideHelp, showHelp. simpl. f_equal.
  - apply set_eq. intros x.
    rewrite !elem_of_difference, elem_of_union, elem_of_singleton. tauto.
  - apply set_eq. intros x.
    rewrite !elem_of_difference, !elem_of_union, !elem_of_singleton. tauto.
Qed.

Lemma show_after_hide (d : dialog) : showHelp (hideHelp d) = showHelp d.
Proof.
  destruct d as [o h]. unfold hideHelp, showHelp. simpl. f_equal.
  - apply set_eq. intros x.
    rewrite !elem_of_union, elem_of_difference, elem_of_singleton.
    destruct (decide (x = "show")); tauto.
  - apply set_eq. intros x.
    rewrite !elem_of_union, !elem_of_difference, !elem_of_singleton.
    destruct (decide (x = "show")), (decide (x = "animate-fade-in")); tauto.
Qed.

Lemma show_after_show (d : dialog) : showHelp (showHelp d) = showHelp d.
Proof.
  destruct d as [o h]. unfold showHelp. simpl. f_equal.
  - apply union_idem_class.
  - apply set_eq. intros x. rewrite !elem_of_union. tauto.
Qed.

Lemma hide_after_hide (d : dialog) : hideHelp (hideHelp d) = hideHelp d.
Proof.
  destruct d as [o h]. unfold hideHelp. simpl. f_equal.
  - apply set_eq. intros x. rewrite !elem_of_difference. tauto.
  - apply set_eq. intros x. rewrite !elem_of_difference. tauto.
Qed.

(** However often the help is opened and closed, only the last call
    counts: the class lists are those the last call alone would have
    produced, so the dialog is displayed exactly when the last call was
    [showHelp].  Closing a dialog that was opened from class lists without
    the three classes gives those class lists back. *)
Theorem help_last_call_wins (d : dialog) (calls : list call) (c : call) :
  foldl apply d (calls ++ [c]) = apply d c ∧
  (shown (foldl apply d (calls ++ [c])) ↔ c = ShowHelp) ∧
  ("show" ∉ overlay d → "show" ∉ helpModal d → "animate-fade-in" ∉ helpModal d →
   hideHelp (showHelp d) = d).
Proof.
  assert (foldl apply d (calls ++ [c]) = apply d c) as Hlast.
  { rewrite foldl_app. simpl. revert d.
    induction calls as [|c0 calls IH]; intros d; [done|]. simpl. rewrite IH.
    destruct c0, c; simpl;
      auto using hide_after_show, show_after_hide, show_after_show, hide_after_hide. }
  split; [exact Hlast|]. split.
  - rewrite Hlast. unfold shown. destruct c; simpl.
    + rewrite !elem_of_union, !elem_of_singleton. tauto.
    + rewrite !elem_of_difference, !elem_of_singleton. split; [tauto | done].
  - intros Ho Hh Ha. destruct d as [o h]. unfold hideHelp, showHelp. simpl in *.
    f_equal.
    + by apply add_remove_class.
    + apply set_eq. intros x.
      rewrite !elem_of_difference, !elem_of_union, !elem_of_singleton.
      destruct (decide (x = "show")), (decide (x = "animate-fade-in")); subst;
        intuition congruence.
Qed.

Lemma help_last_call_wins_witness :
  let d := Dialog {["modal-overlay"]} {["help-modal"]} in
  hideHelp (showHelp d) = d ∧
  ¬ shown (foldl apply d [ShowHelp; ShowHelp; HideHelp]).
Proof.
  intros d. destruct (help_last_call_wins d [] ShowHelp) as (_ & _ & Hback).
  destruct (help_last_call_wins d [ShowHelp; ShowHelp] HideHelp) as (_ & Hshown & _).
  split.
  - apply Hback; subst d; simpl; rewrite elem_of_singleton; done.
  - intros H. apply Hshown in H. discriminate H.
Defined.

End help_facts.

(** ** Collapsible panels *)

Section panel_more.

Import Panel.

Lemma dispatch_keeps_counter (L : list (nat * completion)) (d : details) :
  next_listener (foldl dispatch_to d L) = next_listener d ∧
  frames (foldl dispatch_to d L) = frames d.
Proof.
  revert d. induction L as [|l L IH]; intros d; [done|].
  simpl. destruct (IH (dispatch_to d l)) as [-> ->].
  unfold dispatch_to. by destruct (bool_decide _).
Qed.

Lemma step_well_formed (d : details) (e : event) :
  well_formed d → well_formed (step d e).
Proof.
  intros [Hnd Hlt]. destruct e as [sh fh| |]; simpl.
  - assert (listeners (onClick sh fh d)
            = (listeners d
                 ++ [(next_listener d, if open d then Collapsed else Expanded)])%list
            ∧ next_listener (onClick sh fh d) = S (next_listener d)
            ∧ fired (onClick sh fh d) = fired d) as (Hl & Hn & Hf)
      by (unfold onClick; by destruct (open d)).
    unfold well_formed. rewrite Hl, Hn, Hf, fmap_app, app_assoc. simpl. split.
    + apply NoDup_app. split; [done|]. split; [|apply NoDup_singleton].
      intros x Hx Hin. apply list_elem_of_singleton in Hin as ->.
      rewrite Forall_forall in Hlt. specialize (Hlt _ Hx). lia.
    + apply Forall_app_2.
      * eapply Forall_impl; [exact Hlt|]. intros x Hx. simpl in Hx. lia.
      * repeat constructor.
  - done.
  - apply NoDup_app in Hnd as Hparts. destruct Hparts as (_ & _ & Hids).
    destruct (onTransitionEnd_spec d Hids) as (HL & HF & _).
    unfold well_formed. rewrite HL, HF. simpl. rewrite app_nil_r.
    split; [done|]. unfold onTransitionEnd.
    by destruct (dispatch_keeps_counter (listeners d) d) as [-> _].
Qed.

(** Whatever the sequence of clicks, animation frames and [transitionend]
    events on a panel whose handlers are told apart, no handler is ever
    invoked twice, every handler that was invoked had been registered, and
    right after each [transitionend] event no handler is registered. *)
Theorem no_handler_fires_twice (d : details) (evs : list event) :
  well_formed d →
  well_formed (foldl step d evs) ∧
  NoDup (fired (foldl step d evs)) ∧
  Forall (λ id, (id < next_listener (foldl step d evs))%nat)
         (fired (foldl step d evs)) ∧
  listeners (foldl step d (evs ++ [TransitionEnd])) = [].
Proof.
  intros Hwf.
  assert (well_formed (foldl step d evs)) as Hwf'.
  { revert d Hwf. induction evs as [|e evs IH]; intros d Hwf; [done|].
    simpl. by apply IH, step_well_formed. }
  split; [exact Hwf'|]. destruct Hwf' as [Hnd Hlt].
  apply NoDup_app in Hnd as (Hfired & _ & Hids).
  apply Forall_app in Hlt as [Hlt _].
  split; [done|]. split; [done|].
  rewrite foldl_app. simpl. by destruct (onTransitionEnd_spec _ Hids) as (-> & _).
Qed.

Lemma no_handler_fires_twice_witness :
  let d := Details true "" "" [] [] 0 [] in
  let evs := [Click 30 120; TransitionEnd; Click 30 120; Click 30 120;
              AnimationFrame; TransitionEnd; TransitionEnd; Click 30 120] in
  well_formed d ∧ fired (foldl step d evs) = [0; 1; 2]%nat ∧
  NoDup (fired (foldl step d evs)) ∧
  listeners (foldl step d (evs ++ [TransitionEnd])) = [].
Proof.
  intros d evs.
  assert (well_formed d) as Hwf by (split; constructor).
  destruct (no_handler_fires_twice d evs Hwf) as (_ & Hnd & _ & Hnone).
  split; [exact Hwf|]. split; [reflexivity|]. split; [exact Hnd | exact Hnone].
Defined.

(** From a panel at rest, a click, the animation frame and the
    [transitionend] event together flip the [open] attribute and leave
    nothing behind: no explicit height, no transition, no pending frame, no
    handler.  Two such cycles give the panel its first state back. *)
Theorem completed_toggle_flips_the_panel (d : details) (sh fh sh' fh' : nat) :
  at_rest d → frames d = [] →
  foldl step d [Click sh fh; AnimationFrame; TransitionEnd]
  = Details (negb (open d)) "" "" [] [] (S (next_listener d))
            (fired d ++ [next_listener d]) ∧
  open (foldl step d [Click sh fh; AnimationFrame; TransitionEnd;
                      Click sh' fh'; AnimationFrame; TransitionEnd]) = open d.
Proof.
  intros Hrest Hframes. destruct d as [o h t f l n fd].
  unfold at_rest in Hrest. simpl in Hrest, Hframes. subst l f.
  assert (∀ sh0 fh0 o' h' t' n' fd',
            foldl step (Details o' h' t' [] [] n' fd')
                       [Click sh0 fh0; AnimationFrame; TransitionEnd]
            = Details (negb o') "" "" [] [] (S n') (fd' ++ [n'])) as Hany.
  { intros sh0 fh0 o' h' t' n' fd'.
    destruct o'; simpl; unfold onTransitionEnd, onAnimationFrame, onClick; simpl;
      unfold dispatch_to; simpl;
      rewrite bool_decide_eq_true_2 by (apply list_elem_of_singleton; done);
      unfold invoke, removeEventListener; simpl;
      rewrite filter_cons_False by (simpl; tauto); reflexivity. }
  split; [apply Hany|].
  change [Click sh fh; AnimationFrame; TransitionEnd;
          Click sh' fh'; AnimationFrame; TransitionEnd]
    with ([Click sh fh; AnimationFrame; TransitionEnd]
            ++ [Click sh' fh'; AnimationFrame; TransitionEnd])%list.
  rewrite foldl_app, !Hany. simpl. apply negb_involutive.
Qed.

Lemma completed_toggle_flips_the_panel_witness :
  let d := Details false "" "" [] [] 4 [2; 3]%nat in
  at_rest d ∧ frames d = [] ∧
  foldl step d [Click 30 120; AnimationFrame; TransitionEnd]
  = Details true "" "" [] [] 5 [2; 3; 4]%nat.
Proof.
  intros d.
  destruct (completed_toggle_flips_the_panel d 30 120 30 120 eq_refl eq_refl) as [H _].
  split; [reflexivity|]. split; [reflexivity|]. exact H.
Defined.

(** From any state of the panel, once it has been clicked and as long as
    no [transitionend] event has arrived, the [open] attribute is set (the
    content stays in the document while the panel collapses) and every
    click so far has its handler registered. *)
Theorem panel_stays_open_while_animating (d : details) (evs : list event) :
  Forall (λ e, is_transitionend e = false) evs → (1 ≤ clicks evs)%nat →
  open (foldl step d evs) = true ∧
  length (listeners (foldl step d evs)) = (length (listeners d) + clicks evs)%nat.
Proof.
  intros Hev Hclicks.
  destruct (clicks_accumulate evs d Hev) as (new & HL & Hids & _ & Hop & _).
  split.
  - rewrite Hop. destruct (clicks evs); [lia | done].
  - rewrite HL, length_app. f_equal.
    by rewrite <- (length_fmap fst), Hids, length_seq.
Qed.

Lemma panel_stays_open_while_animating_witness :
  let d := Details true "" "" [] [] 0 [] in
  open (foldl step d [Click 30 120; AnimationFrame]) = true ∧
  length (listeners (foldl step d [Click 30 120; AnimationFrame])) = 1%nat.
Proof.
  intros d.
  apply (panel_stays_open_while_animating d [Click 30 120; AnimationFrame]).
  - repeat constructor.
  - unfold clicks. simpl. lia.
Defined.

End panel_more.

(** ** Form submission *)

Section submission_more.

Import Submission.

(** *** The name of the saved file *)

Lemma includes_empty_string (sep : string) : sep ≠ "" → includes "" sep = false.
Proof. by destruct sep. Qed.

Lemma cut_piece_clean (sep s a b : string) :
  sep ≠ "" → cut sep s = Some (a, b) → includes a sep = false.
Proof.
  intros Hsep Hcut. destruct (includes a sep) eqn:E; [|done].
  apply includes_spec in E as (x & y & Ha).
  pose proof (cut_sound _ _ _ _ Hcut) as Hs.
  assert (s = x +:+ sep +:+ (y +:+ sep +:+ b)) as Hs'
    by (by rewrite Hs, Ha, !app_assoc_s).
  pose proof (cut_leftmost _ _ _ _ _ _ Hcut Hs') as Hle.
  rewrite Ha, !length_app_s in Hle. destruct sep; [done | simpl in Hle; lia].
Qed.

(** No piece of a split contains the separator. *)
Lemma split_go_pieces (sep : string) (fuel : nat) (s : string) :
  sep ≠ "" → (String.length s ≤ fuel)%nat →
  Forall (λ piece, includes piece sep = false) (split_go fuel sep s).
Proof.
  intros Hsep. revert s. induction fuel as [|fuel IH]; intros s Hlen.
  - destruct s; [|simpl in Hlen; lia]. cbn [split_go].
    apply Forall_cons_2; [by apply includes_empty_string | apply Forall_nil_2].
  - cbn [split_go]. destruct (cut sep s) as [[a rest]|] eqn:Hcut.
    + apply Forall_cons_2; [by apply (cut_piece_clean sep s a rest)|].
      apply IH. pose proof (cut_shorter _ _ _ _ Hsep Hcut). lia.
    + apply Forall_cons_2; [|apply Forall_nil_2].
      destruct (includes s sep) eqn:E; [|done].
      apply includes_spec in E as (x & y & Hs).
      destruct (cut_complete sep s x y Hs) as [? Hsome]. congruence.
Qed.

(** Whatever the [content-disposition] header, or without one, the file is
    saved under a name that is not empty and does not contain
    [filename=]. *)
Theorem download_name_is_usable (contentDisposition : option string) :
  download_name contentDisposition ≠ "" ∧
  includes (download_name contentDisposition) "filename=" = false.
Proof.
  destruct contentDisposition as [h|]; [|done]. unfold download_name.
  destruct (split h "filename=" !! 1%nat) as [name|] eqn:Hname; [|done].
  destruct name as [|c name]; [done|]. simpl. split; [done|].
  assert (Forall (λ piece, includes piece "filename=" = false) (split h "filename="))
    as Hall by (by apply split_go_pieces).
  rewrite Forall_lookup in Hall. exact (Hall _ _ Hname).
Qed.

(** *** The life of a run *)

Lemma alter_insert_list {A} (f : A → A) (k : nat) (l : list A) (x : A) :
  l !! k = Some x → alter f k l = <[k := f x]> l.
Proof.
  revert k. induction l as [|y l IH]; intros [|k] H; simpl in *; try done.
  - by injection H as ->.
  - f_equal. by apply IH.
Qed.

(** What one turn of the event loop does to the runs: the submit handler
    appends a run in flight, every other event changes the one run it
    concerns. *)
Lemma step_runs_shape (src : source) (s s' : state) (ev : event) :
  consistent s → step src s ev = Some s' →
  (ev = Submit ∧
   ∃ rg ot, runs s' = (runs s ++ [Run (next_id s) rg ot 0 (Some tick_period)
                                      AwaitingResponse])%list) ∨
  (∃ k r r', runs s !! k = Some r ∧ run_change ev k r r' ∧
             runs s' = <[k := r']> (runs s)).
Proof.
  intros Hs Hstep. unfold step in Hstep.
  destruct (handler src s ev) as [stmts|] eqn:Hh; [|done]. injection Hstep as <-.
  destruct ev as [|k|k status cd|k|k|k|k]; simpl in Hh.
  - left. split; [done|]. injection Hh as <-.
    destruct (onsubmit_runs src s Hs) as (rg & ot & Hruns & _). eauto.
  - right. destruct (runs s !! k) as [r|] eqn:Hk; [|done].
    destruct (progressInterval r) as [p|] eqn:Hp; [|done]. injection Hh as <-.
    exists k, r, (ticked r). split; [done|]. split; [by econstructor|].
    rewrite runs_tick, alter_alter_list. by rewrite (alter_insert_list _ _ _ r).
  - right. destruct (runs s !! k) as [r|] eqn:Hk; [|done]. simpl in Hh.
    destruct (stage_of r) eqn:Hst; try done. injection Hh as <-.
    destruct (ok status) eqn:Hok.
    + exists k, r, (set_stage (AwaitingBlob cd) (set_progressInterval None r)).
      split; [done|]. split; [by constructor|].
      rewrite runs_success, alter_alter_list. by rewrite (alter_insert_list _ _ _ r).
    + exists k, r, (failed r). split; [done|]. split; [by constructor|].
      rewrite runs_catch. by rewrite (alter_insert_list _ _ _ r).
  - right. destruct (runs s !! k) as [r|] eqn:Hk; [|done]. simpl in Hh.
    destruct (stage_of r) eqn:Hst; try done. injection Hh as <-.
    exists k, r, (failed r). split; [done|]. split; [by constructor|].
    rewrite runs_catch. by rewrite (alter_insert_list _ _ _ r).
  - right. destruct (runs s !! k) as [r|] eqn:Hk; [|done]. simpl in Hh.
    destruct (stage_of r) as [| |cd| |] eqn:Hst; try done. injection Hh as <-.
    exists k, r, (set_stage (AwaitingReset Succeeded success_delay) r).
    split; [done|]. split; [by econstructor|].
    rewrite runs_download. by rewrite (alter_insert_list _ _ _ r).
  - right. destruct (runs s !! k) as [r|] eqn:Hk; [|done]. simpl in Hh.
    destruct (stage_of r) as [| |cd| |] eqn:Hst; try done. injection Hh as <-.
    exists k, r, (failed r). split; [done|]. split; [by econstructor|].
    rewrite runs_catch. by rewrite (alter_insert_list _ _ _ r).
  - right. destruct (runs s !! k) as [r|] eqn:Hk; [|done].
    destruct (stage_of r) as [| | |o d|] eqn:Hst; try done. injection Hh as <-.
    exists k, r, (set_stage Finished r). split; [done|]. split; [by econstructor|].
    rewrite runs_reset. by rewrite (alter_insert_list _ _ _ r).
Qed.

Lemma run_change_frame (ev : event) (k : nat) (r r' : run) :
  run_change ev k r r' →
  spinner r' = spinner r ∧ ring r' = ring r ∧ originalText r' = originalText r ∧
  (rank (stage_of r) ≤ rank (stage_of r'))%nat ∧
  (stage_of r = Finished → stage_of r' = Finished) ∧
  progress r' = (progress r + if is_tick k ev then progress_increment else 0)%Z ∧
  (∀ j, is_tick j ev = true → j = k).
Proof.
  intros H. destruct H; unfold ticked, failed; simpl.
  - rewrite bool_decide_eq_true_2 by done.
    destruct (100 <=? _)%Z; simpl; (repeat split; try done; try lia);
      intros j Hj; by apply bool_decide_eq_true in Hj.
  - rewrite H0. simpl. repeat split; try done; lia.
  - rewrite H0. simpl. repeat split; try done; lia.
  - rewrite H. simpl. repeat split; try done; lia.
  - rewrite H. simpl. repeat split; try done; lia.
  - rewrite H. simpl. repeat split; try done; lia.
  - rewrite H. simpl. repeat split; try done; lia.
Qed.

(** Along any sequence of events, a run keeps its spinner, its ring and its
    original text for life, its stages only move forward, and once it is
    finished it stays finished. *)
Theorem a_run_only_moves_forward (src : source) (evs : list event) (s s' : state)
    (k : nat) (r : run) :
  consistent s → steps src s evs = Some s' → runs s !! k = Some r →
  ∃ r', runs s' !! k = Some r' ∧
        spinner r' = spinner r ∧ ring r' = ring r ∧
        originalText r' = originalText r ∧
        (rank (stage_of r) ≤ rank (stage_of r'))%nat ∧
        (stage_of r = Finished → stage_of r' = Finished).
Proof.
  revert s r. induction evs as [|ev evs IH]; intros s r Hs Hsteps Hk;
    cbn [steps] in Hsteps.
  - injection Hsteps as <-. exists r. repeat split; try done; lia.
  - destruct (step src s ev) as [s1|] eqn:Hstep; [|done].
    assert (consistent s1) as Hs1
      by (by destruct (step_children src s s1 ev Hs Hstep) as (? & _)).
    assert (∃ r1, runs s1 !! k = Some r1 ∧
                  spinner r1 = spinner r ∧ ring r1 = ring r ∧
                  originalText r1 = originalText r ∧
                  (rank (stage_of r) ≤ rank (stage_of r1))%nat ∧
                  (stage_of r = Finished → stage_of r1 = Finished))
      as (r1 & Hk1 & Hsp & Hrg & Hot & Hrank & Hfin).
    { destruct (step_runs_shape src s s1 ev Hs Hstep)
        as [[_ (rg & ot & ->)] | (j & rj & rj' & Hj & Hch & ->)].
      - exists r. rewrite lookup_app_l by (by apply lookup_lt_Some in Hk).
        repeat split; try done; lia.
      - destruct (decide (j = k)) as [->|Hne].
        + rewrite Hk in Hj. injection Hj as <-. exists rj'.
          rewrite list_lookup_insert_eq by (by apply lookup_lt_Some in Hk).
          destruct (run_change_frame _ _ _ _ Hch) as (? & ? & ? & ? & ? & _).
          done.
        + exists r. rewrite list_lookup_insert_ne by done.
          repeat split; try done; lia. }
    destruct (IH s1 r1 Hs1 Hsteps Hk1) as (r' & Hk' & Hsp' & Hrg' & Hot' & Hrank' & Hfin').
    exists r'. split; [done|]. rewrite Hsp', Hrg', Hot'.
    repeat split; try done; [lia | auto].
Qed.

Lemma steps_app (src : source) (l1 l2 : list event) (s : state) :
  steps src s (l1 ++ l2) = steps src s l1 ≫= λ x, steps src x l2.
Proof.
  revert s. induction l1 as [|ev l1 IH]; intros s; [done|].
  cbn [app steps]. by destruct (step src s ev).
Qed.

Lemma option_bind_Some {A B} (f : A → option B) (x : A) : Some x ≫= f = f x.
Proof. reflexivity. Qed.

Lemma a_run_only_moves_forward_witness :
  let s := State (Button false ∅ [TextNode "Create Datapack"]) ∅ 0 [] [] in
  ∃ s1 s2 r1 r2,
    steps TypeScript s [Submit] = Some s1 ∧ runs s1 !! 0%nat = Some r1 ∧
    steps TypeScript s1 [Tick 0; Response 0 404 None; Timeout 0; Tick 0] = Some s2 ∧
    runs s2 !! 0%nat = Some r2 ∧ ring r2 = ring r1 ∧
    stage_of r1 = AwaitingResponse ∧ stage_of r2 = Finished.
Proof.
  intros s.
  destruct (steps TypeScript s [Submit]) as [s1|] eqn:Hs1; [|by vm_compute in Hs1].
  assert (consistent s1) as Hc1.
  { pose proof (steps_children TypeScript [Submit] s
                  (proj1 (loaded_text_page "Create Datapack"))) as [_ H].
    by destruct (H s1 Hs1) as (? & _). }
  assert (Some s1 ≫= (λ x, stage_of <$> runs x !! 0%nat) = Some AwaitingResponse)
    as Hst1 by (rewrite <- Hs1; by vm_compute).
  simpl in Hst1. destruct (runs s1 !! 0%nat) as [r1|] eqn:Hr1; [|done].
  injection Hst1 as Hst1.
  assert (steps TypeScript s
            ([Submit] ++ [Tick 0; Response 0 404 None; Timeout 0; Tick 0])
            ≫= (λ x, stage_of <$> runs x !! 0%nat) = Some Finished) as Hst2
    by (by vm_compute).
  rewrite steps_app, Hs1, option_bind_Some in Hst2.
  destruct (steps TypeScript s1 [Tick 0; Response 0 404 None; Timeout 0; Tick 0])
    as [s2|] eqn:Hs2; [|done].
  rewrite option_bind_Some in Hst2.
  destruct (a_run_only_moves_forward TypeScript _ s1 s2 0 r1 Hc1 Hs2 Hr1)
    as (r2 & Hr2 & _ & Hring & _).
  rewrite Hr2 in Hst2. injection Hst2 as Hst2.
  exists s1, s2, r1, r2. repeat split; try reflexivity; assumption.
Defined.

(** A property of runs that holds of a new run and is kept by every change
    holds of all runs of every state that is reached. *)
Lemma steps_runs_invariant (P : run → Prop) (src : source) (evs : list event)
    (s s' : state) :
  (∀ n rg ot, P (Run n rg ot 0 (Some tick_period) AwaitingResponse)) →
  (∀ ev k r r', run_change ev k r r' → P r → P r') →
  consistent s → Forall P (runs s) → steps src s evs = Some s' →
  Forall P (runs s').
Proof.
  intros Hnew Hchange. revert s. induction evs as [|ev evs IH];
    intros s Hs HP Hsteps; cbn [steps] in Hsteps.
  - by injection Hsteps as <-.
  - destruct (step src s ev) as [s1|] eqn:Hstep; [|done].
    apply (IH s1); [|  |done].
    + by destruct (step_children src s s1 ev Hs Hstep) as (? & _).
    + destruct (step_runs_shape src s s1 ev Hs Hstep)
        as [[_ (rg & ot & ->)] | (k & r & r' & Hk & Hch & ->)].
      * apply Forall_app_2; [done|]. apply Forall_cons_2; [apply Hnew | apply Forall_nil_2].
      * apply Forall_insert; [done|]. apply (Hchange ev k r r' Hch).
        rewrite Forall_lookup in HP. by apply (HP k).
Qed.

(** In every state a loaded page can reach, a run that waits for its reset
    waits with the delay of its outcome: 1000 ms after a success, 1500 ms
    after a failure. *)
Theorem reset_delay_follows_the_outcome (src : source) (s0 s : state)
    (evs : list event) (k : nat) (r : run) (o : outcome) (d : Z) :
  loaded s0 → steps src s0 evs = Some s →
  runs s !! k = Some r → stage_of r = AwaitingReset o d →
  d = delay_for o ∧ delay_for Succeeded = 1000%Z ∧ delay_for Failed = 1500%Z.
Proof.
  intros (Hc & Hruns & _) Hsteps Hk Hst. split; [|done].
  assert (Forall (λ r, ∀ o d, stage_of r = AwaitingReset o d → d = delay_for o)
                 (runs s)) as Hall.
  { apply (steps_runs_invariant _ src evs s0 s); try done.
    - intros ev j x x' Hch Hx o' d'. destruct Hch; unfold ticked, failed; simpl;
        try (by intros [= <- <-]); try done.
      destruct (100 <=? _)%Z; simpl; apply Hx.
    - rewrite Hruns. apply Forall_nil_2. }
  rewrite Forall_lookup in Hall. by apply (Hall k r Hk).
Qed.

Lemma reset_delay_follows_the_outcome_witness :
  let s0 := State (Button false ∅ [TextNode "Create Datapack"]) ∅ 0 [] [] in
  ∃ s r d, steps TypeScript s0 [Submit; Response 0 200 None; BlobError 0] = Some s ∧
           runs s !! 0%nat = Some r ∧ stage_of r = AwaitingReset Failed d ∧
           d = 1500%Z.
Proof.
  intros s0.
  assert (∃ s r d, steps TypeScript s0 [Submit; Response 0 200 None; BlobError 0] = Some s ∧
                   runs s !! 0%nat = Some r ∧ stage_of r = AwaitingReset Failed d)
    as (s & r & d & Hs & Hr & Hst).
  { eexists _, _, _. split; [vm_compute; reflexivity|]. split; reflexivity. }
  exists s, r, d. split; [exact Hs|]. split; [exact Hr|]. split; [exact Hst|].
  by destruct (reset_delay_follows_the_outcome TypeScript s0 s _ 0 r Failed d
                 (loaded_text_page "Create Datapack") Hs Hr Hst) as (-> & _).
Defined.

Lemma ticks_cons (k : nat) (ev : event) (evs : list event) :
  ticks k (ev :: evs) = ((if is_tick k ev then 1 else 0) + ticks k evs)%nat.
Proof. unfold ticks. rewrite filter_cons. by destruct (is_tick k ev). Qed.

Lemma step_progress (src : source) (s s1 : state) (ev : event) :
  consistent s → step src s ev = Some s1 →
  (length (runs s) ≤ length (runs s1))%nat ∧
  ∀ k, default 0%Z (progress_of k s1)
       = (default 0 (progress_of k s)
          + if is_tick k ev then progress_increment else 0)%Z ∧
       (is_tick k ev = true → (k < length (runs s))%nat).
Proof.
  intros Hs Hstep. unfold progress_of.
  destruct (step_runs_shape src s s1 ev Hs Hstep)
    as [[-> (rg & ot & ->)] | (j & r & r' & Hj & Hch & ->)].
  - split; [rewrite length_app; lia|]. intros k. split; [|done]. simpl.
    destruct (decide (k < length (runs s))%nat) as [Hlt|Hge].
    + rewrite lookup_app_l by done. lia.
    + rewrite lookup_app_r by lia. rewrite (proj2 (lookup_ge_None (runs s) k)) by lia.
      destruct (k - length (runs s))%nat as [|[|n]]; simpl; lia.
  - rewrite length_insert. split; [lia|]. intros k.
    destruct (run_change_frame _ _ _ _ Hch) as (_ & _ & _ & _ & _ & Hp & Htick).
    pose proof (lookup_lt_Some _ _ _ Hj) as Hlt.
    destruct (decide (j = k)) as [->|Hne].
    + rewrite list_lookup_insert_eq, Hj by done. simpl. split; [exact Hp | done].
    + rewrite list_lookup_insert_ne by done.
      destruct (is_tick k ev) eqn:E; [by destruct Hne; rewrite (Htick k E)|].
      split; [lia | done].
Qed.

Lemma steps_progress (src : source) (evs : list event) (s s' : state) :
  consistent s → steps src s evs = Some s' →
  (length (runs s) ≤ length (runs s'))%nat ∧
  ∀ k, default 0%Z (progress_of k s')
       = (default 0 (progress_of k s) + progress_increment * Z.of_nat (ticks k evs))%Z ∧
       ((length (runs s) ≤ k)%nat → progress_of k s' = None → ticks k evs = 0%nat).
Proof.
  revert s. induction evs as [|ev evs IH]; intros s Hs Hsteps; cbn [steps] in Hsteps.
  - injection Hsteps as <-. split; [lia|]. intros k. unfold ticks. simpl.
    split; [lia | done].
  - destruct (step src s ev) as [s1|] eqn:Hstep; [|done].
    assert (consistent s1) as Hs1
      by (by destruct (step_children src s s1 ev Hs Hstep) as (? & _)).
    destruct (step_progress src s s1 ev Hs Hstep) as [Hlen1 Hstep1].
    destruct (IH s1 Hs1 Hsteps) as [Hlen Hrest].
    split; [lia|]. intros k. rewrite ticks_cons.
    destruct (Hstep1 k) as [Hp1 Ht1]. destruct (Hrest k) as [Hp Ht].
    split.
    + rewrite Hp, Hp1. destruct (is_tick k ev); unfold progress_increment; lia.
    + intros Hge Hnone. unfold progress_of in Hnone.
      apply fmap_None, lookup_ge_None in Hnone.
      destruct (is_tick k ev); [specialize (Ht1 eq_refl); lia|].
      apply Ht; [lia|]. unfold progress_of. apply fmap_None, lookup_ge_None. lia.
Qed.

(** On a loaded page, whatever the events, the progress of a run is twice
    the number of ticks of its timer so far, so that no timer ticks more
    than 50 times, not even one that a failed request left running; and a
    timer that belongs to no run never ticks. *)
Theorem progress_counts_the_ticks (src : source) (s0 s : state) (evs : list event)
    (k : nat) :
  loaded s0 → steps src s0 evs = Some s →
  (∀ r, runs s !! k = Some r →
        progress r = (2 * Z.of_nat (ticks k evs))%Z ∧ (ticks k evs ≤ 50)%nat) ∧
  (runs s !! k = None → ticks k evs = 0%nat).
Proof.
  intros Hload Hsteps. pose proof Hload as (Hc & Hruns & _).
  destruct (steps_progress src evs s0 s Hc Hsteps) as [_ Hk].
  destruct (Hk k) as [Hp Hnone]. unfold progress_of in Hp, Hnone.
  rewrite Hruns in Hp, Hnone. simpl in Hp, Hnone. split.
  - intros r Hr. rewrite Hr in Hp. simpl in Hp. unfold progress_increment in Hp.
    split; [lia|].
    destruct (loaded_run_ok src s0 s evs Hload Hsteps) as [_ Hok].
    rewrite Forall_lookup in Hok. destruct (Hok k r Hr) as (_ & Hb & _). lia.
  - intros Hr. apply Hnone; [lia | by rewrite Hr].
Qed.

Lemma progress_counts_the_ticks_witness :
  let s0 := State (Button false ∅ [TextNode "Create Datapack"]) ∅ 0 [] [] in
  let evs := [Submit; Tick 0; NetworkError 0; Tick 0; Timeout 0; Tick 0] in
  ∃ s r, steps JavaScript s0 evs = Some s ∧ runs s !! 0%nat = Some r ∧
         progress r = 6%Z.
Proof.
  intros s0 evs.
  assert (steps JavaScript s0 evs ≫= (λ x, stage_of <$> runs x !! 0%nat)
          = Some Finished) as Hst by (by vm_compute).
  destruct (steps JavaScript s0 evs) as [s|] eqn:Hs; [|done].
  rewrite option_bind_Some in Hst.
  destruct (runs s !! 0%nat) as [r|] eqn:Hr; [|done].
  destruct (progress_counts_the_ticks JavaScript s0 s evs 0
              (loaded_text_page "Create Datapack") Hs) as [Hp _].
  destruct (Hp r Hr) as [Hprog _]. exists s, r. split; [done|]. split; [done|].
  rewrite Hprog. reflexivity.
Defined.

(** *** Saving the file *)

Lemma saved_execute (stmts : list (state → state)) (s : state) :
  Forall (λ f, ∀ x, saved (f x) = saved x) stmts → saved (execute stmts s) = saved s.
Proof.
  intros H. revert s. induction H as [|f stmts Hf _ IH]; intros s; [done|].
  simpl. by rewrite IH, Hf.
Qed.

Lemma saved_begin_submit (src : source) (s : state) :
  saved (begin_submit src s) = saved s.
Proof. unfold begin_submit. by destruct (querySelector _ _). Qed.

Ltac keeps_saved :=
  repeat first [apply Forall_nil_2 | apply Forall_cons_2 | apply Forall_app_2];
  try (intros x; first [reflexivity | unfold with_run; by destruct (runs x !! _)]).

Lemma step_saved (src : source) (s s1 : state) (ev : event) :
  step src s ev = Some s1 →
  ∃ names, saved s1 = (saved s ++ names)%list ∧
           length names = (if is_blob_ready ev then 1 else 0)%nat ∧
           Forall (λ name, ∃ cd, name = download_name cd) names.
Proof.
  intros Hstep. unfold step in Hstep.
  destruct (handler src s ev) as [stmts|] eqn:Hh; [|done]. injection Hstep as <-.
  destruct ev as [|k|k status cd|k|k|k|k]; simpl in Hh; cbn [is_blob_ready].
  - exists []. rewrite app_nil_r. split; [|done]. apply saved_execute.
    injection Hh as <-. unfold onsubmit. destruct src; keeps_saved;
      apply saved_begin_submit.
  - exists []. rewrite app_nil_r. split; [|done]. apply saved_execute.
    destruct (runs s !! k) as [r|]; [|done].
    destruct (progressInterval r); [|done]. injection Hh as <-.
    unfold tick. keeps_saved.
  - exists []. rewrite app_nil_r. split; [|done]. apply saved_execute.
    destruct (stage_of <$> runs s !! k) as [[]|]; try done. injection Hh as <-.
    destruct (ok status); [unfold success | unfold catch]; keeps_saved.
  - exists []. rewrite app_nil_r. split; [|done]. apply saved_execute.
    destruct (stage_of <$> runs s !! k) as [[]|]; try done. injection Hh as <-.
    unfold catch. keeps_saved.
  - destruct (stage_of <$> runs s !! k) as [[| |cd| |]|]; try done.
    injection Hh as <-. exists [download_name cd]. split; [done|]. split; [done|].
    apply Forall_cons_2; [by exists cd | apply Forall_nil_2].
  - exists []. rewrite app_nil_r. split; [|done]. apply saved_execute.
    destruct (stage_of <$> runs s !! k) as [[]|]; try done. injection Hh as <-.
    unfold catch. keeps_saved.
  - exists []. rewrite app_nil_r. split; [|done]. apply saved_execute.
    destruct (runs s !! k) as [r|]; [|done].
    destruct (stage_of r); try done. injection Hh as <-.
    unfold reset. destruct (originalText_in_scope _ _ _); keeps_saved.
Qed.

Lemma bodies_cons (ev : event) (evs : list event) :
  bodies (ev :: evs) = ((if is_blob_ready ev then 1 else 0) + bodies evs)%nat.
Proof. unfold bodies. rewrite filter_cons. by destruct (is_blob_ready ev). Qed.

(** Whatever the events, from any state, the files saved are those saved
    before followed by one file for each response body that arrived, each
    under the name computed from a header; nothing else saves a file, in
    particular no refused or failed request. *)
Theorem a_file_is_saved_for_each_body (src : source) (evs : list event)
    (s s' : state) :
  steps src s evs = Some s' →
  ∃ names, saved s' = (saved s ++ names)%list ∧
           length names = bodies evs ∧
           Forall (λ name, ∃ cd, name = download_name cd) names.
Proof.
  revert s. induction evs as [|ev evs IH]; intros s Hsteps; cbn [steps] in Hsteps.
  - injection Hsteps as <-. exists []. by rewrite app_nil_r.
  - destruct (step src s ev) as [s1|] eqn:Hstep; [|done].
    destruct (step_saved src s s1 ev Hstep) as (n1 & Hs1 & Hl1 & Hn1).
    destruct (IH s1 Hsteps) as (n2 & Hs2 & Hl2 & Hn2).
    exists (n1 ++ n2)%list. rewrite Hs2, Hs1, <- app_assoc, length_app, bodies_cons.
    split; [done|]. split; [lia | by apply Forall_app_2].
Qed.

Lemma a_file_is_saved_for_each_body_witness :
  let s := State (Button false ∅ [TextNode "Create Datapack"]) ∅ 0 [] [] in
  let evs := [Submit; Response 0 503 (Some "attachment; filename=a.zip"); Timeout 0;
              Submit; Response 1 200 (Some "attachment; filename=b.zip");
              BlobReady 1; Timeout 1; Submit; NetworkError 2] in
  ∃ s', steps TypeScript s evs = Some s' ∧ length (saved s') = 1%nat.
Proof.
  intros s evs.
  destruct (steps TypeScript s evs) as [s'|] eqn:Hs; [|by vm_compute in Hs].
  destruct (a_file_is_saved_for_each_body TypeScript evs s s' Hs)
    as (names & Hsaved & Hlen & _).
  exists s'. split; [done|]. rewrite Hsaved, length_app, Hlen. reflexivity.
Defined.

(** *** Handling the response *)

Lemma btn_success (k : nat) (cd : option string) (s : state) :
  btn (execute (success k cd) s)
  = Button (disabled (btn s)) (classList (btn s) ∖ {["loading"]} ∪ {["success"]})
           [TextNode "Download Starting..."] ∧
  saved (execute (success k cd) s) = saved s.
Proof.
  unfold execute, success. cbn [foldl]. unfold with_run.
  by destruct (runs _ !! k).
Qed.

Lemma btn_reset (src : source) (k : nat) (o : outcome) (r : run) (s : state) :
  disabled (btn (execute (reset src k o r) s)) = false ∧
  classList (btn (execute (reset src k o r) s))
  = classList (btn s) ∖ {[match o with Succeeded => "success" | Failed => "error" end]} ∧
  saved (execute (reset src k o r) s) = saved s.
Proof. unfold reset. by destruct (originalText_in_scope src o r). Qed.

(** A response with a success status, for a run that awaits it, and then
    its body: the button shows [Download Starting...] with the class
    [success] in place of [loading], exactly one file is saved, under the
    name computed from the [content-disposition] header of the response,
    the timer is cancelled and the reset is scheduled after 1000 ms. *)
Theorem accepted_response_saves_under_the_header_name
    (src : source) (s : state) (k : nat) (r : run) (status : Z)
    (cd : option string) :
  runs s !! k = Some r → stage_of r = AwaitingResponse → ok status = true →
  ∃ s1 s2,
    step src s (Response k status cd) = Some s1 ∧
    step src s1 (BlobReady k) = Some s2 ∧
    btn s1 = Button (disabled (btn s)) (classList (btn s) ∖ {["loading"]} ∪ {["success"]})
                    [TextNode "Download Starting..."] ∧
    btn s2 = btn s1 ∧
    saved s1 = saved s ∧
    saved s2 = (saved s ++ [download_name cd])%list ∧
    runs s2 = <[k := set_stage (AwaitingReset Succeeded success_delay)
                       (set_progressInterval None r)]> (runs s).
Proof.
  intros Hk Hst Hok.
  set (s1 := execute (success k cd) s).
  assert (runs s1 = <[k := set_stage (AwaitingBlob cd) (set_progressInterval None r)]>
                      (runs s)) as Hr1.
  { unfold s1. rewrite runs_success, alter_alter_list.
    by rewrite (alter_insert_list _ _ _ r). }
  pose proof (lookup_lt_Some _ _ _ Hk) as Hlt.
  exists s1, (execute (download k cd) s1).
  destruct (btn_success k cd s) as [Hb Hsv]. fold s1 in Hb, Hsv.
  split; [unfold step; simpl; rewrite Hk; simpl; by rewrite Hst, Hok|].
  split.
  { unfold step, handler. rewrite Hr1, list_lookup_insert_eq by done. done. }
  split; [done|]. split; [done|]. split; [done|]. split.
  - change (saved (execute (download k cd) s1))
      with (saved s1 ++ [download_name cd])%list. by rewrite Hsv.
  - rewrite runs_download, Hr1.
    rewrite (alter_insert_list _ _ _
               (set_stage (AwaitingBlob cd) (set_progressInterval None r)))
      by (by rewrite list_lookup_insert_eq).
    by rewrite list_insert_insert_eq.
Qed.

Lemma accepted_response_saves_under_the_header_name_witness :
  let s := State (Button true {["loading"]} [TextNode "Generating..."]) ∅ 0
                 [Run 0 1 (Some "Create") 14 (Some 20%Z) AwaitingResponse] [] in
  ∃ s1 s2, step JavaScript s (Response 0 201 (Some "inline; filename=pack.zip")) = Some s1 ∧
           step JavaScript s1 (BlobReady 0) = Some s2 ∧
           saved s2 = ["pack.zip"].
Proof.
  intros s.
  destruct (accepted_response_saves_under_the_header_name JavaScript s 0
              (Run 0 1 (Some "Create") 14 (Some 20%Z) AwaitingResponse)
              201 (Some "inline; filename=pack.zip") eq_refl eq_refl eq_refl)
    as (s1 & s2 & H1 & H2 & _ & _ & _ & Hsaved & _).
  exists s1, s2. split; [done|]. split; [done|]. rewrite Hsaved. reflexivity.
Defined.

(** A response with a status outside 200..299 is handled exactly like a
    network error.  For a run that awaits its response either one replaces
    the class [loading] by [error] and the label by [Error! Try Again],
    saves nothing, leaves the store alone and changes of the run only its
    stage: the timer and the progress stay as they are. *)
Theorem refused_response_fails_like_a_network_error
    (src : source) (s : state) (k : nat) (status : Z) (cd : option string) :
  ok status = false →
  step src s (Response k status cd) = step src s (NetworkError k) ∧
  ∀ r, runs s !! k = Some r → stage_of r = AwaitingResponse →
       ∃ s1, step src s (NetworkError k) = Some s1 ∧
             btn s1 = Button (disabled (btn s))
                             (classList (btn s) ∖ {["loading"]} ∪ {["error"]})
                             [TextNode "Error! Try Again"] ∧
             saved s1 = saved s ∧ objects s1 = objects s ∧
             runs s1 = <[k := set_stage (AwaitingReset Failed failure_delay) r]> (runs s).
Proof.
  intros Hok. split.
  - unfold step. simpl. destruct (stage_of <$> runs s !! k) as [[]|]; try done.
    by rewrite Hok.
  - intros r Hk Hst. exists (execute (catch k) s).
    split; [unfold step; simpl; rewrite Hk; simpl; by rewrite Hst|].
    split; [done|]. split; [done|]. split; [done|].
    rewrite runs_catch. by rewrite (alter_insert_list _ _ _ r).
Qed.

Lemma refused_response_fails_like_a_network_error_witness :
  let s := State (Button true {["loading"]} [TextNode "Generating..."]) ∅ 0
                 [Run 0 1 (Some "Create") 14 (Some 20%Z) AwaitingResponse] [] in
  step TypeScript s (Response 0 404 None) = step TypeScript s (NetworkError 0) ∧
  ∃ s1, step TypeScript s (NetworkError 0) = Some s1 ∧ timer 0 s1 = Some (Some 20%Z).
Proof.
  intros s.
  destruct (refused_response_fails_like_a_network_error TypeScript s 0 404 None eq_refl)
    as [Hsame Hfail].
  split; [exact Hsame|].
  destruct (Hfail _ eq_refl eq_refl) as (s1 & Hs1 & _ & _ & _ & Hruns).
  exists s1. split; [done|]. unfold timer. rewrite Hruns. reflexivity.
Defined.

(** When the body of an accepted response fails to arrive, the error is
    shown and, after the reset, the button is enabled without the class
    [error]; but nothing removes the class [success] that the accepted
    response had put on the button, and no file is saved. *)
Theorem lost_body_leaves_the_success_class
    (src : source) (s : state) (k : nat) (r : run) (cd : option string) :
  runs s !! k = Some r → stage_of r = AwaitingBlob cd →
  ∃ s1 s2,
    step src s (BlobError k) = Some s1 ∧ step src s1 (Timeout k) = Some s2 ∧
    phase k s1 = Some Failure ∧ phase k s2 = Some Idle ∧
    childNodes (btn s1) = [TextNode "Error! Try Again"] ∧
    disabled (btn s2) = false ∧ saved s2 = saved s ∧
    ("error" ∉ classList (btn s2)) ∧
    ("success" ∈ classList (btn s) → "success" ∈ classList (btn s2)).
Proof.
  intros Hk Hst. pose proof (lookup_lt_Some _ _ _ Hk) as Hlt.
  set (s1 := execute (catch k) s).
  assert (runs s1 = <[k := failed r]> (runs s)) as Hr1
    by (unfold s1; rewrite runs_catch; by rewrite (alter_insert_list _ _ _ r)).
  assert (runs s1 !! k = Some (failed r)) as Hk1
    by (by rewrite Hr1, list_lookup_insert_eq).
  set (s2 := execute (reset src k Failed (failed r)) s1).
  destruct (btn_reset src k Failed (failed r) s1) as (Hd & Hcl & Hsv). fold s2 in Hd, Hcl, Hsv.
  exists s1, s2.
  split; [unfold step; simpl; rewrite Hk; simpl; by rewrite Hst|].
  split; [unfold step, handler; by rewrite Hk1|].
  split; [unfold phase; by rewrite Hk1|].
  split.
  { unfold phase, s2. rewrite runs_reset, list_lookup_alter_eq, Hk1. done. }
  split; [done|]. split; [done|]. split; [done|].
  rewrite Hcl. change (classList (btn s1))
    with (classList (btn s) ∖ {["loading"]} ∪ {["error"]}).
  split.
  - rewrite elem_of_difference, elem_of_singleton. tauto.
  - intros Hin.
    rewrite elem_of_difference, elem_of_union, elem_of_difference, !elem_of_singleton.
    split; [left; split; [done|] |]; discriminate.
Qed.

Lemma lost_body_leaves_the_success_class_witness :
  let s := State (Button true {["success"]} [TextNode "Download Starting..."]) ∅ 0
                 [Run 0 1 (Some "Create") 100 None (AwaitingBlob None)] [] in
  ∃ s1 s2, step TypeScript s (BlobError 0) = Some s1 ∧
           step TypeScript s1 (Timeout 0) = Some s2 ∧
           "success" ∈ classList (btn s2) ∧ disabled (btn s2) = false.
Proof.
  intros s.
  destruct (lost_body_leaves_the_success_class TypeScript s 0
              (Run 0 1 (Some "Create") 100 None (AwaitingBlob None)) None
              eq_refl eq_refl)
    as (s1 & s2 & H1 & H2 & _ & _ & _ & Hd & _ & _ & Hsucc).
  exists s1, s2. split; [done|]. split; [done|]. split; [|done].
  apply Hsucc. simpl. by apply elem_of_singleton.
Defined.

End submission_more.

(** ** A submission from start to end *)

Section submission_round_trip.

Import JsString Submission.

Lemma text_app (els : gmap nat element) (l1 l2 : list node) :
  foldr (λ n acc, node_text els n +:+ acc) "" (l1 ++ l2)
  = foldr (λ n acc, node_text els n +:+ acc) "" l1
    +:+ foldr (λ n acc, node_text els n +:+ acc) "" l2.
Proof.
  induction l1 as [|n l1 IH]; [done|]. cbn [app foldr].
  by rewrite IH, app_assoc_s.
Qed.

Lemma text_ext (els els' : gmap nat element) (l : list node) :
  (∀ n, n ∈ l → node_text els' n = node_text els n) →
  foldr (λ n acc, node_text els' n +:+ acc) "" l
  = foldr (λ n acc, node_text els n +:+ acc) "" l.
Proof.
  induction l as [|n l IH]; intros Hext; [done|]. cbn [foldr].
  rewrite (Hext n) by (by left). rewrite IH; [done|].
  intros m Hm. apply Hext. by right.
Qed.

Lemma node_text_fresh (s : state) (e : element) (id : nat) (n : node) :
  consistent s → (next_id s ≤ id)%nat → n ∈ childNodes (btn s) →
  node_text (<[id := e]> (objects s)) n = node_text (objects s) n.
Proof.
  intros Hs Hid Hn. destruct n as [d|i]; [done|]. simpl.
  pose proof (consistent_child_lt s i Hs Hn).
  rewrite lookup_insert_ne by lia. done.
Qed.

Lemma node_text_set_display (els : gmap nat element) (id : nat) (v : string)
    (n : node) :
  node_text (alter (set_display v) id els) n = node_text els n.
Proof.
  destruct n as [d|i]; [done|]. simpl.
  destruct (decide (i = id)) as [->|Hne].
  - rewrite lookup_alter_eq. by destruct (els !! id).
  - by rewrite lookup_alter_ne.
Qed.

Lemma with_run_last (l : list run) (r : run) (f : run → state → state) (s : state) :
  runs s = (l ++ [r])%list → with_run (length l) f s = f r s.
Proof. intros Hr. unfold with_run. by rewrite Hr, list_lookup_middle. Qed.

Lemma textContent_alloc (e : element) (s : state) :
  consistent s → textContent (alloc e s) = textContent s.
Proof.
  intros Hs. unfold textContent. apply text_ext. intros n Hn.
  by apply node_text_fresh.
Qed.

Lemma begin_submit_exact (src : source) (s : state) :
  consistent s →
  ∃ extra objs rg nid,
    begin_submit src s
    = State (Button (disabled (btn s)) (classList (btn s)) (childNodes (btn s) ++ extra))
            objs nid
            (runs s ++ [Run (next_id s) rg
                        match src with
                        | TypeScript =>
                            Some (textContent s +:+
                                   match querySelector "progress-ring" s with
                                   | Some _ => ""
                                   | None => ring_text src
                                   end)
                        | JavaScript => None
                        end 0 None Starting])
            (saved s) ∧
    objs !! next_id s = Some (Element {["spinner"]} "" "" Unset) ∧
    foldr (λ n acc, node_text objs n +:+ acc) "" (childNodes (btn s) ++ extra)
    = textContent s +:+ match querySelector "progress-ring" s with
                        | Some _ => ""
                        | None => ring_text src
                        end.
Proof.
  intros Hs. unfold begin_submit.
  rewrite (querySelector_alloc "progress-ring" _ s Hs).
  set (sp := Element {["spinner"]} "" "" Unset).
  pose proof (textContent_alloc sp s Hs) as Ht1.
  destruct (querySelector "progress-ring" s) as [r0|] eqn:Hq.
  - exists [], (<[next_id s := sp]> (objects s)), r0, (S (next_id s)).
    rewrite Ht1, app_nil_r, app_nil_r_s.
    split; [|split].
    + destruct s as [[d cl kids] objs nid rs sv]. by destruct src.
    + by rewrite lookup_insert_eq.
    + apply Ht1.
  - exists [Elem (S (next_id s))],
      (<[S (next_id s) := createProgressRing src]> (<[next_id s := sp]> (objects s))),
      (S (next_id s)), (S (S (next_id s))).
    assert (foldr (λ n acc, node_text
              (<[S (next_id s) := createProgressRing src]> (<[next_id s := sp]> (objects s)))
              n +:+ acc) "" (childNodes (btn s) ++ [Elem (S (next_id s))])
            = textContent s +:+ ring_text src) as Ht2.
    { rewrite text_app. f_equal.
      - rewrite <- Ht1. unfold textContent. apply text_ext. intros n Hn.
        apply (node_text_fresh (alloc sp s)); [by apply consistent_alloc | done | done].
      - cbn [foldr node_text]. rewrite lookup_insert_eq. apply app_nil_r_s. }
    split; [|split].
    + unfold textContent at 1. cbn [alloc appendChild upd_btn btn objects next_id runs saved
        childNodes disabled classList].
      rewrite Ht2.
      destruct s as [[d cl kids] objs nid rs sv]. by destruct src.
    + rewrite lookup_insert_ne by lia. by rewrite lookup_insert_eq.
    + apply Ht2.
Qed.

Lemma execute_cons (f : state → state) (stmts : list (state → state)) (s : state) :
  execute (f :: stmts) s = execute stmts (f s).
Proof. reflexivity. Qed.

Lemma onsubmit_exact (src : source) (s : state) :
  consistent s →
  ∃ rg objs nid,
    execute (onsubmit src (length (runs s))) s
    = State (Button true (classList (btn s) ∪ {["loading"]}) [TextNode "Generating..."])
            objs nid
            (runs s ++ [Run (next_id s) rg
                            (Some (textContent s +:+
                                   match querySelector "progress-ring" s with
                                   | Some _ => ""
                                   | None => ring_text src
                                   end))
                            0 (Some tick_period) AwaitingResponse])
            (saved s) ∧
    objs !! next_id s = Some (Element {["spinner"]} "" "block" Unset).
Proof.
  intros Hs.
  destruct (begin_submit_exact src s Hs) as (extra & objs & rg & nid & Hb & Hsp & Htext).
  exists rg, (alter (set_display "block") (next_id s) objs), nid.
  split; [|by rewrite lookup_alter_eq, Hsp].
  assert (∀ ot,
    execute [set_disabled true; classList_add "loading";
             with_run (length (runs s)) (λ r, appendChild (spinner r));
             with_run (length (runs s)) (λ r, upd_elem (spinner r) (set_display "block"))]
      (State (Button (disabled (btn s)) (classList (btn s)) (childNodes (btn s) ++ extra))
             objs nid (runs s ++ [Run (next_id s) rg ot 0 None Starting]) (saved s))
    = State (Button true (classList (btn s) ∪ {["loading"]})
                    ((childNodes (btn s) ++ extra) ++ [Elem (next_id s)]))
            (alter (set_display "block") (next_id s) objs) nid
            (runs s ++ [Run (next_id s) rg ot 0 None Starting]) (saved s)) as Hmid.
  { intros ot. do 3 rewrite execute_cons.
    unfold set_disabled at 1, classList_add at 1, upd_btn.
    cbn [btn objects next_id runs saved disabled classList childNodes].
    erewrite (with_run_last (runs s)) by reflexivity.
    unfold appendChild, upd_btn.
    cbn [btn objects next_id runs saved disabled classList childNodes spinner].
    rewrite execute_cons.
    erewrite (with_run_last (runs s)) by reflexivity.
    reflexivity. }
  assert (∀ (f : run → run) r,
            alter f (length (runs s)) (runs s ++ [r])%list = (runs s ++ [f r])%list)
    as Hlast.
  { intros f r. rewrite alter_app_r_alt by lia. by rewrite Nat.sub_diag. }
  unfold onsubmit. destruct src; cbn [app]; rewrite execute_cons, Hb;
    change (execute (?a :: ?b :: ?c :: ?d :: ?l) ?x)
      with (execute l (execute [a; b; c; d] x));
    rewrite Hmid.
  - unfold execute, set_textContent, upd_btn, upd_run. cbn [foldl].
    cbn [btn objects next_id runs saved disabled classList childNodes].
    by rewrite Hlast.
  - assert (textContent
              (State (Button true (classList (btn s) ∪ {["loading"]})
                             ((childNodes (btn s) ++ extra) ++ [Elem (next_id s)]))
                     (alter (set_display "block") (next_id s) objs) nid
                     (runs s ++ [Run (next_id s) rg None 0 None Starting]) (saved s))
            = textContent s +:+ match querySelector "progress-ring" s with
                                | Some _ => ""
                                | None => ring_text JavaScript
                                end) as Ht.
    { unfold textContent at 1. cbn [btn objects childNodes].
      rewrite text_app, <- Htext. cbn [foldr node_text].
      rewrite lookup_alter_eq, Hsp. cbn [fmap option_fmap option_map set_display innerText].
      rewrite !app_nil_r_s. apply text_ext. intros n _. apply node_text_set_display. }
    rewrite execute_cons, Ht.
    unfold execute, set_textContent, upd_btn, upd_run. cbn [foldl].
    cbn [btn objects next_id runs saved disabled classList childNodes].
    by rewrite !Hlast.
Qed.

Lemma classes_after_run (c : string) (cl : gset string) :
  ((cl ∪ {["loading"]}) ∖ {["loading"]} ∪ {[c]}) ∖ {[c]} = cl ∖ {["loading"]} ∖ {[c]}.
Proof.
  apply set_eq. intros x.
  rewrite !elem_of_difference, elem_of_union, elem_of_difference, elem_of_union,
    !elem_of_singleton.
  tauto.
Qed.

Lemma text_of_label (els : gmap nat element) (id : nat) (v : string) :
  let kids := filter (λ n, n ≠ Elem id) (match v with "" => [] | _ => [TextNode v] end) in
  Forall is_text kids ∧ foldr (λ n acc, node_text els n +:+ acc) "" kids = v.
Proof.
  destruct v as [|c v]; [done|].
  rewrite filter_cons_True by done. rewrite filter_nil. split.
  - by apply Forall_cons_2; [|apply Forall_nil_2].
  - cbn [foldr node_text]. apply app_nil_r_s.
Qed.

(** A submission whose request is accepted and whose body arrives, followed
    to its reset, from any consistent page: the four events are all handled,
    the button is enabled again, the classes [loading] and [success] are
    gone, one file is saved under the name computed from the header, the
    spinner of the run is hidden and the button has text children only.
    Its label is the text the button had, followed, when the handler had to
    create the ring, by the white space inside the ring: the label is not
    restored exactly. *)
Theorem successful_submission_round_trip (src : source) (s : state) (status : Z)
    (cd : option string) :
  consistent s → ok status = true →
  ∃ s',
    steps src s [Submit; Response (length (runs s)) status cd;
                 BlobReady (length (runs s)); Timeout (length (runs s))] = Some s' ∧
    disabled (btn s') = false ∧
    classList (btn s') = classList (btn s) ∖ {["loading"]} ∖ {["success"]} ∧
    Forall is_text (childNodes (btn s')) ∧
    textContent s' = textContent s +:+ match querySelector "progress-ring" s with
                                       | Some _ => ""
                                       | None => ring_text src
                                       end ∧
    saved s' = (saved s ++ [download_name cd])%list ∧
    phase (length (runs s)) s' = Some Idle ∧
    spinner_display (length (runs s)) s' = Some "none".
Proof.
  intros Hs Hok.
  set (k := length (runs s)).
  set (label := textContent s +:+ _).
  destruct (onsubmit_exact src s Hs) as (rg & objs & nid & Hs1 & Hsp).
  fold k label in Hs1.
  set (s1 := execute (onsubmit src k) s) in *.
  set (r1 := Run (next_id s) rg (Some label) 0 (Some tick_period) AwaitingResponse) in *.
  assert (runs s1 !! k = Some r1) as Hk1 by (rewrite Hs1; apply list_lookup_middle; done).
  assert (k < length (runs s1))%nat as Hlt by (by apply lookup_lt_Some with r1).
  set (s2 := execute (success k cd) s1).
  set (r2 := set_stage (AwaitingBlob cd) (set_progressInterval None r1)).
  assert (runs s2 = <[k := r2]> (runs s1)) as Hr2.
  { unfold s2. rewrite runs_success, alter_alter_list.
    by rewrite (alter_insert_list _ _ _ r1). }
  assert (runs s2 !! k = Some r2) as Hk2 by (by rewrite Hr2, list_lookup_insert_eq).
  set (s3 := execute (download k cd) s2).
  set (r3 := set_stage (AwaitingReset Succeeded success_delay) r2).
  assert (runs s3 = <[k := r3]> (runs s2)) as Hr3.
  { unfold s3. rewrite runs_download. by rewrite (alter_insert_list _ _ _ r2). }
  assert (runs s3 !! k = Some r3) as Hk3.
  { rewrite Hr3, list_lookup_insert_eq; [done|]. by rewrite Hr2, length_insert. }
  set (s4 := execute (reset src k Succeeded r3) s3).
  assert (runs s4 !! k = Some (set_stage Finished r3)) as Hk4.
  { unfold s4. by rewrite runs_reset, list_lookup_alter_eq, Hk3. }
  destruct (btn_success k cd s1) as [Hb2 Hsv2]. fold s2 in Hb2, Hsv2.
  assert (btn s3 = btn s2 ∧ objects s3 = objects s2 ∧
          saved s3 = (saved s2 ++ [download_name cd])%list) as (Hb3 & Ho3 & Hsv3) by done.
  assert (originalText_in_scope src Succeeded r3 = Some label) as Hot by (by destruct src).
  assert (btn s4 = Button false (classList (btn s3) ∖ {["success"]})
                     (filter (λ n, n ≠ Elem rg)
                             (match label with "" => [] | _ => [TextNode label] end)) ∧
          objects s4 = alter (set_display "none") (next_id s) (objects s3) ∧
          saved s4 = saved s3) as (Hb4 & Ho4 & Hsv4).
  { unfold s4, reset. rewrite Hot. done. }
  exists s4. split.
  { cbn [steps]. fold k.
    replace (step src s Submit) with (Some s1) by done.
    replace (step src s1 (Response k status cd)) with (Some s2)
      by (unfold step, handler; rewrite Hk1; cbn; by rewrite Hok).
    replace (step src s2 (BlobReady k)) with (Some s3)
      by (unfold step, handler; by rewrite Hk2).
    unfold step, handler. by rewrite Hk3. }
  destruct (text_of_label (objects s4) rg label) as [Htx Hlab].
  split; [by rewrite Hb4|].
  split.
  { rewrite Hb4, Hb3, Hb2. cbn [classList]. rewrite Hs1. cbn [btn classList].
    apply classes_after_run. }
  split; [by rewrite Hb4|].
  split; [unfold textContent; by rewrite Hb4|].
  split; [rewrite Hsv4, Hsv3, Hsv2, Hs1; done|].
  split; [unfold phase; by rewrite Hk4|].
  unfold spinner_display. rewrite Hk4. cbn [spinner set_stage r3 r2 r1 set_progressInterval].
  rewrite Ho4, lookup_alter_eq, Ho3.
  unfold s2. rewrite (objects_success k cd r1 s1 Hk1). cbn [ring r1].
  assert (is_Some (objects s1 !! next_id s)) as [e He]
    by (rewrite Hs1; cbn [objects]; by rewrite Hsp).
  destruct (decide (rg = next_id s)) as [->|Hne].
  - by rewrite lookup_alter_eq, He.
  - by rewrite lookup_alter_ne, He.
Qed.

Lemma successful_submission_round_trip_witness :
  let s := State (Button false {["download-button"]} [TextNode "Create Datapack"])
                 ∅ 0 [] [] in
  ∃ s', steps JavaScript s [Submit; Response 0 200 (Some "attachment; filename=pack.zip");
                            BlobReady 0; Timeout 0] = Some s' ∧
        textContent s' = "Create Datapack" +:+ ring_text JavaScript ∧
        saved s' = ["pack.zip"] ∧ disabled (btn s') = false.
Proof.
  intros s.
  assert (consistent s) as Hs
    by (apply consistent_text_page, Forall_cons_2; [exact I | apply Forall_nil_2]).
  destruct (successful_submission_round_trip JavaScript s 200
              (Some "attachment; filename=pack.zip") Hs eq_refl)
    as (s' & Hsteps & Hd & _ & _ & Htext & Hsaved & _).
  exists s'. split; [exact Hsteps|]. split; [exact Htext|]. split; [exact Hsaved | exact Hd].
Defined.



End submission_round_trip.
